(** * gotrie: the byte-radix prefix trie

    A shallow embedding of [PrefixTrie] (Find, Delete, Insert, Scan, Pair,
    Text) and the properties of its specification.

    Modelling choices.
    - A key is a Go [string] read as [[]byte]: a [list byte].
    - [children [256]*pnode] is a list of 256 slots, [None] for a nil
      pointer; the slot of byte [b] is [Byte.to_nat b].
    - [value interface{}] is an [option V] for an arbitrary payload type
      [V]; [None] is Go's nil, the zero value of a fresh node.
    - Every node has exactly one parent, so the pointer graph is a tree
      and a node is the value of its subtree.  A write through a pointer
      ([n.valid = false], [n.children[k] = c]) is seen at once by every
      ancestor; the embedding spells this out by writing the updated
      child back into the slot of its parent.
    - A bookmark holds the subtree its pointer designates when it is
      pushed.  This is exact for as long as no Insert or Delete runs
      between two Scan calls, which is the only use the statements about
      enumeration make of it.  Scan never writes a node, so the nodes
      under [root] are exact for every interleaving of calls; and every
      bookmark always designates a finite tree of 256-slot nodes with
      [k] at most 256, which is all that the termination of Scan uses.
    - Slices used as stacks ([bookmarks]) are lists whose head is the last
      element of the slice.
    - [uint16] is a [Z] with its wrap-around written out.
    - An index out of range (a run-time panic in Go) is [None]. *)

From Stdlib Require Import ZArith Lia Bool.
From Stdlib Require Import Strings.Byte.
From stdpp Require Import base option list sorting countable gmap.

Local Open Scope Z_scope.

(** ** Machine integers *)

Definition uint16 (z : Z) : Z := z mod 65536.

(** [byte(k)] for [k : uint16]: the low eight bits. *)
Definition byte_of_uint16 (z : Z) : byte :=
  match Byte.of_nat (Z.to_nat (z mod 256)) with
  | Some b => b
  | None => x00
  end.

#[global] Instance byte_eq_decision : EqDecision byte := Byte.byte_eq_dec.

Section Trie.

Variable V : Type.

(** ** Data model *)

(** [pnode]: a node in a prefix trie. *)
#[local] Unset Elimination Schemes.
Inductive pnode : Type :=
  Pnode { children : list (option pnode); value : option V; valid : bool }.

#[local] Set Elimination Schemes.

(** [pbookmark]; its fields [n], [prefix], [k] carry the prefix [bm_]. *)
Record pbookmark : Type :=
  Pbookmark { bm_n : pnode; bm_prefix : list byte; bm_k : Z }.

Record PrefixTrie : Type :=
  MkPrefixTrie { root : pnode; bookmarks : list pbookmark }.

(** [new(pnode)]: 256 nil children, nil value, not valid. *)
Definition new_pnode : pnode :=
  Pnode (replicate 256 None) None false.

(** [NewPrefixTrie]. *)
Definition NewPrefixTrie : PrefixTrie :=
  MkPrefixTrie new_pnode [].

(** [n.children[i]], with nil as [None]. *)
Definition child (nd : pnode) (i : nat) : option pnode :=
  match children nd !! i with
  | Some c => c
  | None => None
  end.

(** [n.children[i] = c]. *)
Definition set_child (nd : pnode) (i : nat) (c : option pnode) : pnode :=
  Pnode (<[i := c]> (children nd)) (value nd) (valid nd).

(** [n.valid = b]. *)
Definition set_valid (nd : pnode) (b : bool) : pnode :=
  Pnode (children nd) (value nd) b.

(** [n.value = v; n.valid = true]. *)
Definition set_payload (nd : pnode) (v : option V) : pnode :=
  Pnode (children nd) v true.

(** [bm.k = z]. *)
Definition set_k (bm : pbookmark) (z : Z) : pbookmark :=
  Pbookmark (bm_n bm) (bm_prefix bm) z.

(** ** Find *)

Fixpoint find_from (nd : pnode) (key : list byte) : option V * bool :=
  match key with
  | [] => (value nd, valid nd)
  | b :: key' =>
      match child nd (Byte.to_nat b) with
      | None => (None, false)
      | Some c => find_from c key'
      end
  end.

Definition Find (t : PrefixTrie) (key : list byte) : option V * bool :=
  find_from (root t) key.

(** ** Insert *)

(** The second loop: a fresh node for every remaining byte, then the
    payload on the last one. *)
Fixpoint insert_fresh (nd : pnode) (rest : list byte) (v : option V) : pnode :=
  match rest with
  | [] => set_payload nd v
  | b :: rest' =>
      set_child nd (Byte.to_nat b) (Some (insert_fresh new_pnode rest' v))
  end.

(** The first loop: follow existing children; at the first nil child
    ([indexLastByte = i; break]) hand over to the second loop. *)
Fixpoint insert_from (nd : pnode) (key : list byte) (v : option V) : pnode :=
  match key with
  | [] => set_payload nd v
  | b :: key' =>
      match child nd (Byte.to_nat b) with
      | None => insert_fresh nd key v
      | Some c => set_child nd (Byte.to_nat b) (Some (insert_from c key' v))
      end
  end.

Definition Insert (t : PrefixTrie) (key : list byte) (v : option V) : PrefixTrie :=
  MkPrefixTrie (insert_from (root t) key v) (bookmarks t).

(** ** Delete *)

(** The search loop: push a bookmark per byte; [None] when a child is
    missing ([return false]). *)
Fixpoint delete_walk (nd : pnode) (key : list byte) (bms : list pbookmark)
  : option (list pbookmark) :=
  match key with
  | [] => Some bms
  | b :: key' =>
      match child nd (Byte.to_nat b) with
      | None => None
      | Some c => delete_walk c key' (Pbookmark c [b] 0 :: bms)
      end
  end.

(** [for i := 0; i < 256; i++ { if bm.n.children[i] != nil ... }]. *)
Definition has_children (nd : pnode) : bool :=
  existsb (fun i => match child nd i with Some _ => true | None => false end)
          (seq 0 256).

(** [bm.prefix[0]] as a slot number. *)
Definition prefix0 (bm : pbookmark) : option nat :=
  match bm_prefix bm with
  | b :: _ => Some (Byte.to_nat b)
  | [] => None
  end.

(** The node of [cur] has been written to; the ancestors still on the
    stack point at it, so the new root is obtained by putting it back in
    its slot, level by level. *)
Fixpoint relink (cur : pbookmark) (bms : list pbookmark) : option pnode :=
  match bms with
  | [] => Some (bm_n cur)
  | parent :: bms' =>
      match prefix0 cur with
      | None => None
      | Some i =>
          relink (Pbookmark (set_child (bm_n parent) i (Some (bm_n cur)))
                            (bm_prefix parent) (bm_k parent)) bms'
      end
  end.

(** The cleanup loop.  [bms] is the bookmark stack, [prev] the slot to
    unlink in the popped bookmark's node (256: none).  The result is the
    root after the loop has returned true. *)
Fixpoint delete_cleanup (bms : list pbookmark) (prev : Z) : option pnode :=
  match bms with
  | [] => None
  | bm :: bms' =>
      let bm :=
        if prev =? 256 then bm
        else Pbookmark (set_child (bm_n bm) (Z.to_nat prev) None)
                       (bm_prefix bm) (bm_k bm) in
      match bms' with
      | [] => Some (bm_n bm)
      | _ :: _ =>
          if valid (bm_n bm) then relink bm bms'
          else if has_children (bm_n bm) then relink bm bms'
          else
            match prefix0 bm with
            | None => None
            | Some i => delete_cleanup bms' (Z.of_nat i)
            end
      end
  end.

(** After the search loop, on its bookmark stack: [wasValid], the write
    [n.valid = false], and either [return false] or the cleanup loop.  The
    result is the root afterwards and the returned boolean. *)
Definition delete_at (bms : list pbookmark) : option (pnode * bool) :=
  match bms with
  | [] => None
  | bm :: bms' =>
      let wasValid := valid (bm_n bm) in
      let bm := Pbookmark (set_valid (bm_n bm) false) (bm_prefix bm) (bm_k bm) in
      if negb wasValid then
        match relink bm bms' with
        | Some r => Some (r, false)
        | None => None
        end
      else
        match delete_cleanup (bm :: bms') 256 with
        | Some r => Some (r, true)
        | None => None
        end
  end.

Definition Delete (t : PrefixTrie) (key : list byte)
  : option (PrefixTrie * bool) :=
  match delete_walk (root t) key [Pbookmark (root t) [] 0] with
  | None => Some (t, false)
  | Some bms =>
      match delete_at bms with
      | Some (r, found) => Some (MkPrefixTrie r (bookmarks t), found)
      | None => None
      end
  end.

(** ** Scan *)

(** The loop [for bm.k == 256 { ... }]: pop while the top bookmark is
    exhausted.  The boolean tells that [itop] reached -1 ([return false]);
    the stack then still holds its last bookmark. *)
Fixpoint scan_pop (bm : pbookmark) (rest : list pbookmark) {struct rest}
  : pbookmark * list pbookmark * bool :=
  if bm_k bm =? 256 then
    match rest with
    | [] => (bm, [], true)
    | bm' :: rest' => scan_pop bm' rest'
    end
  else (bm, rest, false).

(** The body of [outer: for { ... }], one unit of fuel per iteration of
    the inner [for] and per pass through the pop loop; [None] when the
    fuel runs out. *)
Fixpoint scan_loop (fuel : nat) (bm : pbookmark) (rest : list pbookmark)
  : option (bool * list pbookmark) :=
  match fuel with
  | O => None
  | S fuel' =>
      if bm_k bm <? 256 then
        match child (bm_n bm) (Z.to_nat (bm_k bm)) with
        | Some c =>
            let bm' := Pbookmark c (bm_prefix bm ++ [byte_of_uint16 (bm_k bm)]) 0 in
            if valid c then Some (true, bm' :: bm :: rest)
            else scan_loop fuel' bm' (bm :: rest)
        | None => scan_loop fuel' (set_k bm (uint16 (bm_k bm + 1))) rest
        end
      else
        match scan_pop bm rest with
        | (bm1, rest1, true) => Some (false, bm1 :: rest1)
        | (bm1, rest1, false) =>
            scan_loop fuel' (set_k bm1 (uint16 (bm_k bm1 + 1))) rest1
        end
  end.

(** A bound on the iterations left under a node: 256 slots, and for each
    child one push, its own iterations and one pop. *)
Fixpoint cost (nd : pnode) : nat :=
  (256 + (fix go (cs : list (option pnode)) : nat :=
            match cs with
            | [] => O
            | None :: cs' => go cs'
            | Some c :: cs' => S (cost c) + go cs'
            end) (children nd))%nat.

Fixpoint cost_list (cs : list (option pnode)) : nat :=
  match cs with
  | [] => O
  | None :: cs' => cost_list cs'
  | Some c :: cs' => (S (cost c) + cost_list cs')%nat
  end.

Definition cost_from (nd : pnode) (z : Z) : nat :=
  (Z.to_nat (256 - z) + cost_list (drop (Z.to_nat z) (children nd)))%nat.

Definition scan_fuel (bm : pbookmark) (rest : list pbookmark) : nat :=
  S (cost_from (bm_n bm) (bm_k bm)
     + list_sum (map (fun b => S (cost_from (bm_n b) (bm_k b + 1))) rest))%nat.

Definition Scan (t : PrefixTrie) : option (bool * PrefixTrie) :=
  let bms :=
    match bookmarks t with
    | [] => [Pbookmark (root t) [] 0]
    | _ :: _ => bookmarks t
    end in
  match bms with
  | [] => None
  | bm :: rest =>
      match scan_loop (scan_fuel bm rest) bm rest with
      | Some (b, bms') => Some (b, MkPrefixTrie (root t) bms')
      | None => None
      end
  end.

(** ** Pair and Text *)

Definition Pair (t : PrefixTrie) : option (list byte * option V) :=
  match bookmarks t with
  | bm :: _ => Some (bm_prefix bm, value (bm_n bm))
  | [] => None
  end.

Definition Text (t : PrefixTrie) : option (list byte) :=
  match bookmarks t with
  | bm :: _ => Some (bm_prefix bm)
  | [] => None
  end.

(** The loop [for t.Scan() { ... t.Pair() ... }]: the pairs read after
    every true return, and the trie left by the call that returned false.
    [fuel] bounds the number of Scan calls. *)
Fixpoint scan_all (fuel : nat) (t : PrefixTrie)
  : option (list (list byte * option V) * PrefixTrie) :=
  match fuel with
  | O => None
  | S fuel' =>
      match Scan t with
      | None => None
      | Some (false, t') => Some ([], t')
      | Some (true, t') =>
          match Pair t', scan_all fuel' t' with
          | Some p, Some (ps, t'') => Some (p :: ps, t'')
          | _, _ => None
          end
      end
  end.

(** ** Sequences of calls *)

(** The calls that write to the trie or to its cursor.  Find, Pair and
    Text only read, so a sequence of calls leaves the state its Insert,
    Delete and Scan calls leave. *)
Inductive op : Type :=
  | OpInsert (key : list byte) (v : option V)
  | OpDelete (key : list byte)
  | OpScan.

Definition step (t : PrefixTrie) (o : op) : option PrefixTrie :=
  match o with
  | OpInsert key v => Some (Insert t key v)
  | OpDelete key =>
      match Delete t key with
      | Some (t', _) => Some t'
      | None => None
      end
  | OpScan =>
      match Scan t with
      | Some (_, t') => Some t'
      | None => None
      end
  end.

Fixpoint run (t : PrefixTrie) (os : list op) : option PrefixTrie :=
  match os with
  | [] => Some t
  | o :: os' =>
      match step t o with
      | Some t' => run t' os'
      | None => None
      end
  end.

(** An operation that writes the entry of [key]. *)
Definition touches (key : list byte) (o : op) : Prop :=
  match o with
  | OpInsert key' _ => key' = key
  | OpDelete key' => key' = key
  | OpScan => False
  end.

(** ** Predicates and reference functions of the specification *)

(** The array type: every node has exactly 256 slots. *)
Fixpoint wf_node (nd : pnode) : bool :=
  (length (children nd) =? 256)%nat
  && forallb (fun c => match c with Some c' => wf_node c' | None => true end)
             (children nd).

Definition wf_bookmark (bm : pbookmark) : bool :=
  wf_node (bm_n bm) && (0 <=? bm_k bm) && (bm_k bm <=? 256).

Definition wf_trie (t : PrefixTrie) : bool :=
  wf_node (root t) && forallb wf_bookmark (bookmarks t).

(** A node that has a reason to be kept: terminal, or with a child. *)
Definition live (nd : pnode) : bool := valid nd || has_children nd.

(** No node strictly below [nd] is both childless and not terminal. *)
Fixpoint compact (nd : pnode) : bool :=
  forallb (fun c => match c with
                    | Some c' => live c' && compact c'
                    | None => true
                    end) (children nd).

(** The node reached from [nd] along a byte path. *)
Fixpoint walk (nd : pnode) (path : list byte) : option pnode :=
  match path with
  | [] => Some nd
  | b :: path' =>
      match child nd (Byte.to_nat b) with
      | None => None
      | Some c => walk c path'
      end
  end.

(** Deletion by recursion on the key: the subtree after the call and
    whether the key was stored.  [Delete] is shown to compute it. *)
Fixpoint delete_from (nd : pnode) (key : list byte) : pnode * bool :=
  match key with
  | [] => (set_valid nd false, valid nd)
  | b :: key' =>
      match child nd (Byte.to_nat b) with
      | None => (nd, false)
      | Some c =>
          let '(c', found) := delete_from c key' in
          if found then
            (set_child nd (Byte.to_nat b) (if live c' then Some c' else None),
             true)
          else (nd, false)
      end
  end.

(** The stored pairs at and below a node in depth-first order, slots in
    ascending order; [pre] is the path of the node. *)
Fixpoint entries (pre : list byte) (nd : pnode) : list (list byte * option V) :=
  (if valid nd then [(pre, value nd)] else [])
  ++ (fix go (i : nat) (cs : list (option pnode)) :=
        match cs with
        | [] => []
        | c :: cs' =>
            match c with
            | Some c' => entries (pre ++ [byte_of_uint16 (Z.of_nat i)]) c'
            | None => []
            end ++ go (S i) cs'
        end) O (children nd).

(** The stored pairs below the slots [i], [i+1], ... of a node, [cs]
    being its children from slot [i] on. *)
Fixpoint entries_from (pre : list byte) (i : nat) (cs : list (option pnode))
  : list (list byte * option V) :=
  match cs with
  | [] => []
  | c :: cs' =>
      match c with
      | Some c' => entries (pre ++ [byte_of_uint16 (Z.of_nat i)]) c'
      | None => []
      end ++ entries_from pre (S i) cs'
  end.

(** What is left to enumerate under a bookmark whose next slot is [z]. *)
Definition pending_bm (bm : pbookmark) (z : Z) : list (list byte * option V) :=
  entries_from (bm_prefix bm) (Z.to_nat z) (drop (Z.to_nat z) (children (bm_n bm))).

(** What is left to enumerate from a cursor stack: the top bookmark from
    its [k] on, every other bookmark from the slot after its [k]. *)
Definition pending (bm : pbookmark) (rest : list pbookmark)
  : list (list byte * option V) :=
  pending_bm bm (bm_k bm)
  ++ concat (map (fun b => pending_bm b (bm_k b + 1)) rest).

(** What is left to enumerate when Scan is entered: with no bookmark the
    generator starts again at the root. *)
Definition remaining (t : PrefixTrie) : list (list byte * option V) :=
  match bookmarks t with
  | [] => pending (Pbookmark (root t) [] 0) []
  | bm :: rest => pending bm rest
  end.

(** Strict byte-lexicographic order of keys. *)
Fixpoint lex_lt (a b : list byte) : bool :=
  match a, b with
  | _, [] => false
  | [], _ :: _ => true
  | x :: a', y :: b' =>
      (Byte.to_nat x <? Byte.to_nat y)%nat
      || ((Byte.to_nat x =? Byte.to_nat y)%nat && lex_lt a' b')
  end.

End Trie.

Arguments Pnode {V}.
Arguments Pbookmark {V}.
Arguments MkPrefixTrie {V}.
Arguments new_pnode {V} : simpl never.
Arguments NewPrefixTrie {V}.
Arguments children {V}.
Arguments value {V}.
Arguments valid {V}.
Arguments bm_n {V}.
Arguments bm_prefix {V}.
Arguments bm_k {V}.
Arguments root {V}.
Arguments bookmarks {V}.
Arguments child {V}.
Arguments set_child {V}.
Arguments set_valid {V}.
Arguments set_payload {V}.
Arguments set_k {V}.
Arguments find_from {V}.
Arguments Find {V}.
Arguments insert_fresh {V}.
Arguments insert_from {V}.
Arguments Insert {V}.
Arguments delete_walk {V}.
Arguments has_children {V}.
Arguments prefix0 {V}.
Arguments relink {V}.
Arguments delete_cleanup {V}.
Arguments delete_at {V}.
Arguments Delete {V}.
Arguments scan_pop {V}.
Arguments scan_loop {V}.
Arguments cost {V}.
Arguments cost_list {V}.
Arguments cost_from {V}.
Arguments scan_fuel {V}.
Arguments Scan {V}.
Arguments Pair {V}.
Arguments Text {V}.
Arguments scan_all {V}.
Arguments OpInsert {V}.
Arguments OpDelete {V}.
Arguments OpScan {V}.
Arguments step {V}.
Arguments run {V}.
Arguments touches {V}.
Arguments wf_node {V}.
Arguments wf_bookmark {V}.
Arguments wf_trie {V}.
Arguments live {V}.
Arguments compact {V}.
Arguments walk {V}.
Arguments delete_from {V}.
Arguments entries {V}.
Arguments entries_from {V}.
Arguments pending_bm {V}.
Arguments pending {V}.
Arguments remaining {V}.

(** ** The scenarios of the specification, with integer payloads *)

Definition k_a : list byte := ["a"]%byte.
Definition k_ab : list byte := ["a"; "b"]%byte.
Definition k_b : list byte := ["b"]%byte.
Definition k_rom : list byte := ["r"; "o"; "m"]%byte.
Definition romane : list byte := ["r"; "o"; "m"; "a"; "n"; "e"]%byte.
Definition romanus : list byte := ["r"; "o"; "m"; "a"; "n"; "u"; "s"]%byte.
Definition romulus : list byte := ["r"; "o"; "m"; "u"; "l"; "u"; "s"]%byte.
Definition rubens : list byte := ["r"; "u"; "b"; "e"; "n"; "s"]%byte.
Definition ruber : list byte := ["r"; "u"; "b"; "e"; "r"]%byte.
Definition rubicon : list byte := ["r"; "u"; "b"; "i"; "c"; "o"; "n"]%byte.
Definition rubicundus : list byte :=
  ["r"; "u"; "b"; "i"; "c"; "u"; "n"; "d"; "u"; "s"]%byte.

Definition insert_all (kvs : list (list byte * option Z)) (t : PrefixTrie Z)
  : PrefixTrie Z :=
  fold_left (fun t' kv => Insert t' (fst kv) (snd kv)) kvs t.

(** Scenario 1: Insert("", 0), Insert("a", 1), Insert("ab", 2). *)
Definition scenario1 : PrefixTrie Z :=
  insert_all [([], Some 0); (k_a, Some 1); (k_ab, Some 2)] NewPrefixTrie.


(** Scenario 2: the seven keys, inserted in the order of the text. *)
Definition scenario2 : PrefixTrie Z :=
  insert_all [(romane, Some 1); (romanus, Some 2); (romulus, Some 3);
              (rubens, Some 4); (ruber, Some 5); (rubicon, Some 6);
              (rubicundus, Some 7)] NewPrefixTrie.

(** ** Further reference functions *)

#[global] Instance byte_countable : Countable byte :=
  inj_countable' Byte.to_N (fun n => default x00 (Byte.of_N n))
                 (fun b => f_equal (default x00) (Byte.of_to_N b)).

Section Reference.

Variable V : Type.

(** The finite map a sequence of calls denotes: Insert writes an entry,
    Delete removes one, Scan leaves the map alone. *)
Definition map_step (m : gmap (list byte) (option V)) (o : op V)
  : gmap (list byte) (option V) :=
  match o with
  | OpInsert key v => <[key := v]> m
  | OpDelete key => delete key m
  | OpScan => m
  end.

Definition map_of (os : list (op V)) : gmap (list byte) (option V) :=
  fold_left map_step os ∅.

(** The number of nodes of a subtree. *)
Fixpoint node_count (nd : pnode V) : nat :=
  S ((fix go (cs : list (option (pnode V))) : nat :=
        match cs with
        | [] => O
        | None :: cs' => go cs'
        | Some c :: cs' => (node_count c + go cs')%nat
        end) (children nd)).

Fixpoint count_list (cs : list (option (pnode V))) : nat :=
  match cs with
  | [] => O
  | None :: cs' => count_list cs'
  | Some c :: cs' => (node_count c + count_list cs')%nat
  end.

(** How many leading bytes of [key] the first loop of Insert follows
    before it meets a nil child: [indexLastByte], or the length of the
    key when every child exists. *)
Fixpoint matched (nd : pnode V) (key : list byte) : nat :=
  match key with
  | [] => O
  | b :: key' =>
      match child nd (Byte.to_nat b) with
      | None => O
      | Some c => S (matched c key')
      end
  end.

(** A sequence of Delete calls with the result of each. *)
Fixpoint delete_all (t : PrefixTrie V) (ds : list (list byte))
  : option (PrefixTrie V * list (list byte * bool)) :=
  match ds with
  | [] => Some (t, [])
  | d :: ds' =>
      match Delete t d with
      | None => None
      | Some (t', ok) =>
          match delete_all t' ds' with
          | Some (t'', rs) => Some (t'', (d, ok) :: rs)
          | None => None
          end
      end
  end.

(** The loop [for t.Scan() { fmt.Println(t.Text()) }]: the lines printed
    and the trie after the loop.  [fuel] bounds the number of Scan calls. *)
Fixpoint scan_texts (fuel : nat) (t : PrefixTrie V)
  : option (list (list byte) * PrefixTrie V) :=
  match fuel with
  | O => None
  | S fuel' =>
      match Scan t with
      | None => None
      | Some (false, t') => Some ([], t')
      | Some (true, t') =>
          match Text t', scan_texts fuel' t' with
          | Some key, Some (keys, t'') => Some (key :: keys, t'')
          | _, _ => None
          end
      end
  end.

End Reference.

Arguments map_step {V}.
Arguments map_of {V}.
Arguments node_count {V}.
Arguments count_list {V}.
Arguments matched {V}.
Arguments delete_all {V}.
Arguments scan_texts {V}.

(** ** The revision whose bookmarks carry no prefix

    An earlier revision of the package: Find and Insert are the same, there
    is no Delete, a bookmark is a node and [k], and Pair and Text rebuild
    the key from the [k] of the bookmarks below the top one. *)

Module Prefixless.

Section Trie.

Variable V : Type.

Record pbookmark : Type := Pbookmark { bm_n : pnode V; bm_k : Z }.

Record PrefixTrie : Type :=
  MkPrefixTrie { root : pnode V; bookmarks : list pbookmark }.

Definition NewPrefixTrie : PrefixTrie := MkPrefixTrie new_pnode [].

Definition Find (t : PrefixTrie) (key : list byte) : option V * bool :=
  find_from (root t) key.

Definition Insert (t : PrefixTrie) (key : list byte) (v : option V)
  : PrefixTrie :=
  MkPrefixTrie (insert_from (root t) key v) (bookmarks t).

Definition set_k (bm : pbookmark) (z : Z) : pbookmark :=
  Pbookmark (bm_n bm) z.

Fixpoint scan_pop (bm : pbookmark) (rest : list pbookmark) {struct rest}
  : pbookmark * list pbookmark * bool :=
  if bm_k bm =? 256 then
    match rest with
    | [] => (bm, [], true)
    | bm' :: rest' => scan_pop bm' rest'
    end
  else (bm, rest, false).

Fixpoint scan_loop (fuel : nat) (bm : pbookmark) (rest : list pbookmark)
  : option (bool * list pbookmark) :=
  match fuel with
  | O => None
  | S fuel' =>
      if bm_k bm <? 256 then
        match child (bm_n bm) (Z.to_nat (bm_k bm)) with
        | Some c =>
            let bm' := Pbookmark c 0 in
            if valid c then Some (true, bm' :: bm :: rest)
            else scan_loop fuel' bm' (bm :: rest)
        | None => scan_loop fuel' (set_k bm (uint16 (bm_k bm + 1))) rest
        end
      else
        match scan_pop bm rest with
        | (bm1, rest1, true) => Some (false, bm1 :: rest1)
        | (bm1, rest1, false) =>
            scan_loop fuel' (set_k bm1 (uint16 (bm_k bm1 + 1))) rest1
        end
  end.

Definition scan_fuel (bm : pbookmark) (rest : list pbookmark) : nat :=
  S (cost_from (bm_n bm) (bm_k bm)
     + list_sum (map (fun b => S (cost_from (bm_n b) (bm_k b + 1))) rest))%nat.

Definition Scan (t : PrefixTrie) : option (bool * PrefixTrie) :=
  let bms :=
    match bookmarks t with
    | [] => [Pbookmark (root t) 0]
    | _ :: _ => bookmarks t
    end in
  match bms with
  | [] => None
  | bm :: rest =>
      match scan_loop (scan_fuel bm rest) bm rest with
      | Some (b, bms') => Some (b, MkPrefixTrie (root t) bms')
      | None => None
      end
  end.

(** The loop of Pair over the slice, from its first element (the last of
    the list): [sb] is the builder, [n] the node variable, nil at first. *)
Fixpoint pair_loop (i finalIndex : Z) (bs : list pbookmark)
    (sb : list byte) (n : option (pnode V)) : list byte * option (pnode V) :=
  match bs with
  | [] => (sb, n)
  | b :: bs' =>
      if i <? finalIndex then
        pair_loop (i + 1) finalIndex bs' (sb ++ [byte_of_uint16 (bm_k b)]) n
      else pair_loop (i + 1) finalIndex bs' sb (Some (bm_n b))
  end.

(** [n.value] with [n] nil is a run-time panic: [None]. *)
Definition Pair (t : PrefixTrie) : option (list byte * option V) :=
  let finalIndex := Z.of_nat (length (bookmarks t)) - 1 in
  match pair_loop 0 finalIndex (rev (bookmarks t)) [] None with
  | (sb, Some n) => Some (sb, value n)
  | (_, None) => None
  end.

Fixpoint text_loop (i finalIndex : Z) (bs : list pbookmark) (sb : list byte)
  : list byte :=
  match bs with
  | [] => sb
  | b :: bs' =>
      if i <? finalIndex then
        text_loop (i + 1) finalIndex bs' (sb ++ [byte_of_uint16 (bm_k b)])
      else text_loop (i + 1) finalIndex bs' sb
  end.

Definition Text (t : PrefixTrie) : list byte :=
  let finalIndex := Z.of_nat (length (bookmarks t)) - 1 in
  text_loop 0 finalIndex (rev (bookmarks t)) [].

(** The loop [for t.Scan() { ... t.Pair() ... }]. *)
Fixpoint scan_all (fuel : nat) (t : PrefixTrie)
  : option (list (list byte * option V) * PrefixTrie) :=
  match fuel with
  | O => None
  | S fuel' =>
      match Scan t with
      | None => None
      | Some (false, t') => Some ([], t')
      | Some (true, t') =>
          match Pair t', scan_all fuel' t' with
          | Some p, Some (ps, t'') => Some (p :: ps, t'')
          | _, _ => None
          end
      end
  end.

End Trie.

Arguments Pbookmark {V}.
Arguments MkPrefixTrie {V}.
Arguments bm_n {V}.
Arguments bm_k {V}.
Arguments root {V}.
Arguments bookmarks {V}.
Arguments NewPrefixTrie {V}.
Arguments Find {V}.
Arguments Insert {V}.
Arguments set_k {V}.
Arguments scan_pop {V}.
Arguments scan_loop {V}.
Arguments scan_fuel {V}.
Arguments Scan {V}.
Arguments pair_loop {V}.
Arguments Pair {V}.
Arguments text_loop {V}.
Arguments Text {V}.
Arguments scan_all {V}.

End Prefixless.

(** Forgetting the prefix of a bookmark. *)
Definition erase_bookmark {V : Type} (bm : pbookmark V) : Prefixless.pbookmark V :=
  Prefixless.Pbookmark (bm_n bm) (bm_k bm).

Definition erase_trie {V : Type} (t : PrefixTrie V) : Prefixless.PrefixTrie V :=
  Prefixless.MkPrefixTrie (root t) (map erase_bookmark (bookmarks t)).

(** In a cursor stack built by Scan the prefix of every bookmark is the
    prefix of the one below it followed by the byte [k] of that one, and
    the prefix of the bottom bookmark is empty. *)
Fixpoint chained {V : Type} (bms : list (pbookmark V)) : Prop :=
  match bms with
  | [] => True
  | bm :: rest =>
      match rest with
      | [] => bm_prefix bm = []
      | parent :: _ =>
          bm_prefix bm = bm_prefix parent ++ [byte_of_uint16 (bm_k parent)]
      end /\ chained rest
  end.

(** ** The two command-line programs

    The lines that [bufio.Scanner] yields are the input, the lines printed
    on the standard output and on the standard error the result, with the
    exit status.  [err] tells that [scanner.Err()] is not nil; the program
    then prints the error and exits with status 1 (the text of the error
    message is not part of the result). *)

(** [int], taken as 64 bits. *)
Definition int_wrap (z : Z) : Z := (z + 2 ^ 63) mod 2 ^ 64 - 2 ^ 63.

Module SortLines.

(** The program that inserts every line with the value [struct{}{}] and
    prints the keys that the Scan loop yields. *)
Definition main (lines : list (list byte)) (err : bool)
  : option (list (list byte) * Z) :=
  let t := fold_left (fun t line => Insert t line (Some tt)) lines
                     NewPrefixTrie in
  if err then Some ([], 1)
  else
    match scan_texts (S (length lines)) t with
    | Some (out, _) => Some (out, 0)
    | None => None
    end.

End SortLines.

Module DeleteDemo.

(** The reading loop: [line++; t.Insert(scanner.Text(), line)]. *)
Fixpoint read_lines (t : PrefixTrie Z) (line : Z) (lines : list (list byte))
  : PrefixTrie Z :=
  match lines with
  | [] => t
  | text :: lines' =>
      let line := int_wrap (line + 1) in
      read_lines (Insert t text (Some line)) line lines'
  end.

(** The keys of the [deleteFromTrie] calls, in order. *)
Definition deleted : list (list byte) :=
  [[]; romane; romanus; romulus; romane; romanus; romulus; rubens; ruber;
   rubicon; rubicundus; []].

(** The program that inserts "" and every line, prints the keys that the
    Scan loop yields, then deletes a fixed list of keys, each
    [deleteFromTrie] printing the key and the result of Delete on the
    standard error. *)
Definition main (lines : list (list byte)) (err : bool)
  : option (list (list byte) * list (list byte * bool) * Z) :=
  let t := read_lines (Insert NewPrefixTrie [] (Some 0)) 0 lines in
  if err then Some ([], [], 1)
  else
    match scan_texts (S (length lines)) t with
    | None => None
    | Some (out, t') =>
        match delete_all t' deleted with
        | Some (_, results) => Some (out, results, 0)
        | None => None
        end
    end.

End DeleteDemo.

(** * Properties *)

Section Nodes.

Context {V : Type}.
Implicit Types (nd c : pnode V) (key path : list byte) (b : byte).

(** Induction on the tree of nodes. *)
Lemma pnode_ind (P : pnode V -> Prop) :
  (forall cs v f,
      (forall i c, cs !! i = Some (Some c) -> P c) -> P (Pnode cs v f)) ->
  forall nd, P nd.
Proof.
  intros step. fix IH 1. intros [cs v f]. apply step.
  induction cs as [| [c0 |] cs IHcs]; intros [| i] c Hi; simpl in Hi;
    try discriminate.
  - injection Hi as <-. apply IH.
  - eapply IHcs, Hi.
  - eapply IHcs, Hi.
Qed.

Lemma byte_slot b : (Byte.to_nat b < 256)%nat.
Proof. pose proof (Byte.to_nat_bounded b). lia. Qed.

Lemma byte_slot_inj b b' : Byte.to_nat b = Byte.to_nat b' -> b = b'.
Proof.
  intros H. pose proof (Byte.of_to_nat b) as Hb.
  rewrite H, Byte.of_to_nat in Hb. congruence.
Qed.

Lemma byte_of_uint16_slot (i : nat) :
  (i < 256)%nat -> Byte.to_nat (byte_of_uint16 (Z.of_nat i)) = i.
Proof.
  intros Hi. unfold byte_of_uint16.
  rewrite Z.mod_small by lia. rewrite Nat2Z.id.
  destruct (Byte.of_nat i) as [b |] eqn:E.
  - now apply Byte.to_of_nat.
  - pose proof (Byte.to_of_nat_option_map i) as H. rewrite E in H.
    simpl in H. destruct (Nat.leb_spec i 255); [discriminate | lia].
Qed.

Lemma byte_of_uint16_to_nat b : byte_of_uint16 (Z.of_nat (Byte.to_nat b)) = b.
Proof. apply byte_slot_inj, byte_of_uint16_slot, byte_slot. Qed.

(** ** Slots *)

Lemma child_Some nd i c : child nd i = Some c <-> children nd !! i = Some (Some c).
Proof.
  unfold child. destruct (children nd !! i) as [[c' |] |]; split; congruence.
Qed.

Lemma child_lt nd i c : child nd i = Some c -> (i < length (children nd))%nat.
Proof. rewrite child_Some. apply lookup_lt_Some. Qed.

Lemma child_set_child_eq nd i x :
  (i < length (children nd))%nat -> child (set_child nd i x) i = x.
Proof.
  intros Hi. unfold child, set_child. simpl.
  now rewrite list_lookup_insert_eq.
Qed.

Lemma child_set_child_ne nd i j x :
  i <> j -> child (set_child nd i x) j = child nd j.
Proof.
  intros Hij. unfold child, set_child. simpl.
  now rewrite list_lookup_insert_ne.
Qed.

Lemma set_child_id nd i c : child nd i = Some c -> set_child nd i (Some c) = nd.
Proof.
  rewrite child_Some. intros H. destruct nd as [cs v f]. unfold set_child.
  simpl in *. now rewrite list_insert_id.
Qed.

Lemma set_valid_id nd : set_valid nd (valid nd) = nd.
Proof. now destruct nd. Qed.

Lemma child_new i : child (@new_pnode V) i = None.
Proof.
  unfold child, new_pnode. cbn [children].
  destruct (replicate 256 (@None (pnode V)) !! i) as [x |] eqn:E; [| reflexivity].
  apply lookup_replicate in E. now destruct E as [-> _].
Qed.

Lemma has_children_true nd :
  has_children nd = true <-> exists i c, (i < 256)%nat /\ child nd i = Some c.
Proof.
  unfold has_children. rewrite existsb_exists. split.
  - intros (i & Hi & Hc). apply in_seq in Hi.
    destruct (child nd i) as [c |] eqn:E; [| discriminate].
    exists i, c. split; [lia | assumption].
  - intros (i & c & Hi & Hc). exists i. split.
    + apply in_seq. lia.
    + now rewrite Hc.
Qed.

Lemma has_children_false nd :
  has_children nd = false <-> forall i, (i < 256)%nat -> child nd i = None.
Proof.
  split.
  - intros H i Hi. destruct (child nd i) as [c |] eqn:E; [| reflexivity].
    assert (has_children nd = true) by (apply has_children_true; eauto).
    congruence.
  - intros H. destruct (has_children nd) eqn:E; [| reflexivity].
    apply has_children_true in E. destruct E as (i & c & Hi & Hc).
    rewrite H in Hc by assumption. discriminate.
Qed.

(** ** The array type *)

Lemma wf_node_spec nd :
  wf_node nd = true <->
  length (children nd) = 256%nat /\
  forall i c, child nd i = Some c -> wf_node c = true.
Proof.
  destruct nd as [cs v f]. simpl.
  rewrite andb_true_iff, Nat.eqb_eq, forallb_forall. split.
  - intros [Hl Hc]. split; [assumption |]. intros i c Hi.
    apply child_Some in Hi. simpl in Hi.
    apply (Hc (Some c)). apply list_elem_of_In. eapply list_elem_of_lookup_2, Hi.
  - intros [Hl Hc]. split; [assumption |]. intros [c |] Hin; [| reflexivity].
    apply list_elem_of_In, list_elem_of_lookup_1 in Hin. destruct Hin as [i Hi].
    apply (Hc i). now apply child_Some.
Qed.

Lemma wf_node_length nd : wf_node nd = true -> length (children nd) = 256%nat.
Proof. intros H. now apply wf_node_spec in H. Qed.

Lemma wf_node_child nd i c :
  wf_node nd = true -> child nd i = Some c -> wf_node c = true.
Proof. intros H. apply wf_node_spec in H. destruct H as [_ H]. apply H. Qed.

Lemma wf_new : wf_node (@new_pnode V) = true.
Proof. reflexivity. Qed.

Lemma wf_set_child nd i x :
  wf_node nd = true ->
  match x with Some c => wf_node c = true | None => True end ->
  wf_node (set_child nd i x) = true.
Proof.
  intros Hnd Hx. apply wf_node_spec. apply wf_node_spec in Hnd.
  destruct Hnd as [Hl Hc]. split.
  - unfold set_child. simpl. now rewrite length_insert.
  - intros j c Hj. destruct (decide (i = j)) as [<- | Hne].
    + pose proof (child_lt _ _ _ Hj) as Hlt. unfold set_child in Hlt.
      simpl in Hlt. rewrite length_insert in Hlt.
      rewrite child_set_child_eq in Hj by assumption. subst x. assumption.
    + rewrite child_set_child_ne in Hj by assumption. eapply Hc, Hj.
Qed.

Lemma wf_set_valid nd f : wf_node nd = true -> wf_node (set_valid nd f) = true.
Proof. now destruct nd. Qed.

Lemma wf_set_payload nd v : wf_node nd = true -> wf_node (set_payload nd v) = true.
Proof. now destruct nd. Qed.

End Nodes.

Section FindInsert.

Context {V : Type}.
Implicit Types (nd c : pnode V) (key path : list byte) (b : byte) (v : option V).

Lemma find_walk nd key :
  find_from nd key =
  match walk nd key with
  | Some x => (value x, valid x)
  | None => (None, false)
  end.
Proof.
  revert nd. induction key as [| b key IH]; intros nd; simpl.
  - reflexivity.
  - destruct (child nd (Byte.to_nat b)); [apply IH | reflexivity].
Qed.

Lemma insert_fresh_cons nd b key v :
  insert_fresh nd (b :: key) v =
  set_child nd (Byte.to_nat b) (Some (insert_fresh new_pnode key v)).
Proof. reflexivity. Qed.

Lemma wf_insert_fresh nd key v :
  wf_node nd = true -> wf_node (insert_fresh nd key v) = true.
Proof.
  revert nd. induction key as [| b key IH]; intros nd Hnd.
  - now apply wf_set_payload.
  - rewrite insert_fresh_cons. apply wf_set_child; [assumption |].
    apply IH, wf_new.
Qed.

Lemma wf_insert_from nd key v :
  wf_node nd = true -> wf_node (insert_from nd key v) = true.
Proof.
  revert nd. induction key as [| b key IH]; intros nd Hnd.
  - now apply wf_set_payload.
  - simpl. destruct (child nd (Byte.to_nat b)) as [c |] eqn:E.
    + apply wf_set_child; [assumption |]. eapply IH, wf_node_child; eauto.
    + apply wf_set_child; [assumption |]. apply wf_insert_fresh, wf_new.
Qed.

Lemma find_insert_fresh_eq nd key v :
  wf_node nd = true -> find_from (insert_fresh nd key v) key = (v, true).
Proof.
  revert nd. induction key as [| b key IH]; intros nd Hnd.
  - reflexivity.
  - rewrite insert_fresh_cons. cbn [find_from].
    rewrite child_set_child_eq.
    + apply IH, wf_new.
    + rewrite (wf_node_length _ Hnd). apply byte_slot.
Qed.

Lemma find_insert_fresh_ne key v key' :
  key' <> key ->
  find_from (insert_fresh (@new_pnode V) key v) key' = (None, false).
Proof.
  revert key'. induction key as [| b key IH]; intros [| b' key'] Hne;
    try congruence.
  - cbn [insert_fresh find_from]. unfold set_payload, child.
    cbn [children]. fold (child (@new_pnode V) (Byte.to_nat b')).
    now rewrite child_new.
  - reflexivity.
  - rewrite insert_fresh_cons. cbn [find_from].
    destruct (decide (Byte.to_nat b = Byte.to_nat b')) as [Hb | Hb].
    + rewrite <- Hb. rewrite child_set_child_eq.
      * apply IH. apply byte_slot_inj in Hb. congruence.
      * rewrite (wf_node_length _ wf_new). apply byte_slot.
    + rewrite child_set_child_ne by assumption. now rewrite child_new.
Qed.

Lemma find_insert_eq nd key v :
  wf_node nd = true -> find_from (insert_from nd key v) key = (v, true).
Proof.
  revert nd. induction key as [| b key IH]; intros nd Hnd.
  - reflexivity.
  - cbn [insert_from]. destruct (child nd (Byte.to_nat b)) as [c |] eqn:E.
    + cbn [find_from]. rewrite child_set_child_eq.
      * eapply IH, wf_node_child; eauto.
      * eapply child_lt, E.
    + now apply find_insert_fresh_eq.
Qed.

Lemma find_insert_ne nd key v key' :
  wf_node nd = true -> key' <> key ->
  find_from (insert_from nd key v) key' = find_from nd key'.
Proof.
  revert nd key'. induction key as [| b key IH]; intros nd [| b' key'] Hnd Hne;
    try congruence.
  - reflexivity.
  - cbn [insert_from]. destruct (child nd (Byte.to_nat b)); reflexivity.
  - cbn [insert_from]. destruct (child nd (Byte.to_nat b)) as [c |] eqn:E.
    + cbn [find_from].
      destruct (decide (Byte.to_nat b = Byte.to_nat b')) as [Hb | Hb].
      * rewrite <- Hb, E. rewrite child_set_child_eq by (eapply child_lt, E).
        apply IH; [eapply wf_node_child; eauto |].
        apply byte_slot_inj in Hb. congruence.
      * now rewrite child_set_child_ne.
    + rewrite insert_fresh_cons. cbn [find_from].
      destruct (decide (Byte.to_nat b = Byte.to_nat b')) as [Hb | Hb].
      * rewrite <- Hb, E. rewrite child_set_child_eq.
        -- apply find_insert_fresh_ne. apply byte_slot_inj in Hb. congruence.
        -- rewrite (wf_node_length _ Hnd). apply byte_slot.
      * now rewrite child_set_child_ne.
Qed.

(** Insert keeps every path, and the flag and payload of every node off
    the inserted key. *)
Lemma walk_insert nd key v path x :
  walk nd path = Some x ->
  exists x', walk (insert_from nd key v) path = Some x' /\
             (path <> key -> value x' = value x /\ valid x' = valid x).
Proof.
  revert nd key x. induction path as [| p path IH]; intros nd key x Hw.
  - injection Hw as <-. eexists. split; [reflexivity |]. intros Hne.
    destruct key as [| b key]; [congruence |]. cbn [insert_from].
    destruct (child nd (Byte.to_nat b)); now split.
  - cbn [walk] in Hw. destruct (child nd (Byte.to_nat p)) as [c |] eqn:E;
      [| discriminate].
    destruct key as [| b key].
    + exists x. split; [| now split]. cbn [insert_from walk].
      unfold set_payload, child in *. cbn [children]. 
      destruct (children nd !! Byte.to_nat p) as [[c' |] |]; congruence.
    + destruct (decide (Byte.to_nat b = Byte.to_nat p)) as [Hb | Hb].
      * cbn [insert_from]. rewrite Hb, E. cbn [walk].
        rewrite child_set_child_eq by (eapply child_lt, E).
        destruct (IH c key x Hw) as (x' & Hx' & Hsame).
        exists x'. split; [assumption |]. intros Hne. apply Hsame.
        apply byte_slot_inj in Hb. congruence.
      * exists x. split; [| now split]. cbn [insert_from].
        destruct (child nd (Byte.to_nat b)) as [c' |] eqn:E';
          [| rewrite insert_fresh_cons]; cbn [walk];
          rewrite child_set_child_ne by assumption; now rewrite E.
Qed.

End FindInsert.

Section DeleteTheory.

Context {V : Type}.
Implicit Types (nd c : pnode V) (key path : list byte) (b : byte)
  (bm : pbookmark V) (bms : list (pbookmark V)).

(** ** Deletion by recursion on the key *)

Lemma delete_from_found nd key :
  snd (delete_from nd key) = snd (find_from nd key).
Proof.
  revert nd. induction key as [| b key IH]; intros nd; simpl.
  - reflexivity.
  - destruct (child nd (Byte.to_nat b)) as [c |]; [| reflexivity].
    specialize (IH c). destruct (delete_from c key) as [c' found].
    simpl in IH. rewrite <- IH. now destruct found.
Qed.

Lemma delete_from_absent nd key :
  snd (find_from nd key) = false -> delete_from nd key = (nd, false).
Proof.
  revert nd. induction key as [| b key IH]; intros nd; simpl.
  - intros H. rewrite H. f_equal. rewrite <- H. apply set_valid_id.
  - destruct (child nd (Byte.to_nat b)) as [c |]; [| reflexivity].
    intros H. now rewrite (IH c H).
Qed.

Lemma dead_find c key : live c = false -> snd (find_from c key) = false.
Proof.
  unfold live. intros H. apply orb_false_iff in H. destruct H as [Hv Hc].
  destruct key as [| b key]; simpl; [assumption |].
  rewrite (proj1 (has_children_false c) Hc) by apply byte_slot. reflexivity.
Qed.

Lemma find_delete_eq nd key :
  snd (find_from (fst (delete_from nd key)) key) = false.
Proof.
  revert nd. induction key as [| b key IH]; intros nd; simpl.
  - reflexivity.
  - destruct (child nd (Byte.to_nat b)) as [c |] eqn:E.
    + specialize (IH c). pose proof (delete_from_found c key) as Hf.
      destruct (delete_from c key) as [c' found]. simpl in *.
      destruct found; simpl.
      * rewrite child_set_child_eq by (eapply child_lt, E).
        destruct (live c'); [assumption | reflexivity].
      * rewrite E. congruence.
    + simpl. now rewrite E.
Qed.

Lemma find_delete_ne nd key key' :
  key' <> key ->
  snd (find_from (fst (delete_from nd key)) key') = snd (find_from nd key') /\
  (snd (find_from nd key') = true ->
   find_from (fst (delete_from nd key)) key' = find_from nd key').
Proof.
  revert nd key'. induction key as [| b key IH]; intros nd [| b' key'] Hne;
    try congruence.
  - now split.
  - simpl. destruct (child nd (Byte.to_nat b)) as [c |]; [| now split].
    destruct (delete_from c key) as [c' found]. destruct found; now split.
  - cbn [delete_from]. destruct (child nd (Byte.to_nat b)) as [c |] eqn:E;
      [| now split].
    specialize (IH c key').
    destruct (delete_from c key) as [c' found] eqn:Ed.
    destruct found; [| now split]. cbn [fst find_from].
    destruct (decide (Byte.to_nat b = Byte.to_nat b')) as [Hb | Hb].
    + rewrite <- Hb, E. rewrite child_set_child_eq by (eapply child_lt, E).
      assert (key' <> key) as Hk
          by (apply byte_slot_inj in Hb; congruence).
      destruct (IH Hk) as [IH1 IH2]. simpl in IH1, IH2.
      destruct (live c') eqn:El; [now split |].
      pose proof (dead_find c' key' El) as Hd. rewrite Hd in IH1.
      simpl. split; [congruence |]. intros Ht. congruence.
    + rewrite child_set_child_ne by assumption. now split.
Qed.

Lemma wf_delete_from nd key :
  wf_node nd = true -> wf_node (fst (delete_from nd key)) = true.
Proof.
  revert nd. induction key as [| b key IH]; intros nd Hnd; cbn [delete_from].
  - now apply wf_set_valid.
  - destruct (child nd (Byte.to_nat b)) as [c |] eqn:E; [| assumption].
    specialize (IH c (wf_node_child _ _ _ Hnd E)).
    destruct (delete_from c key) as [c' found]. cbn [fst] in IH.
    destruct found; [| assumption]. cbn [fst].
    apply wf_set_child; [assumption |]. now destruct (live c').
Qed.

(** ** The bookmark stack computes it *)

Lemma delete_cleanup_prev bm bms (prev : Z) :
  prev <> 256 ->
  delete_cleanup (bm :: bms) prev =
  delete_cleanup
    (Pbookmark (set_child (bm_n bm) (Z.to_nat prev) None) (bm_prefix bm)
               (bm_k bm) :: bms) 256.
Proof.
  intros Hp. cbn [delete_cleanup].
  destruct (Z.eqb_spec prev 256) as [? | _]; [contradiction |].
  rewrite Z.eqb_refl. reflexivity.
Qed.

Lemma delete_cleanup_live bm bms :
  live (bm_n bm) = true -> delete_cleanup (bm :: bms) 256 = relink bm bms.
Proof.
  intros Hl. cbn [delete_cleanup]. rewrite Z.eqb_refl.
  destruct bms as [| parent bms]; [reflexivity |].
  unfold live in Hl. destruct (valid (bm_n bm)); [reflexivity |].
  simpl in Hl. now rewrite Hl.
Qed.

Lemma delete_cleanup_dead bm parent bms (i : nat) :
  live (bm_n bm) = false -> prefix0 bm = Some i ->
  delete_cleanup (bm :: parent :: bms) 256 =
  delete_cleanup (parent :: bms) (Z.of_nat i).
Proof.
  unfold live. intros Hl Hp. apply orb_false_iff in Hl. destruct Hl as [Hv Hc].
  cbn [delete_cleanup]. rewrite Z.eqb_refl, Hv, Hc, Hp. reflexivity.
Qed.

Lemma live_set_child nd b c :
  (Byte.to_nat b < length (children nd))%nat ->
  live (set_child nd (Byte.to_nat b) (Some c)) = true.
Proof.
  intros Hb. unfold live. apply orb_true_iff. right.
  apply has_children_true. exists (Byte.to_nat b), c.
  split; [apply byte_slot | now apply child_set_child_eq].
Qed.

Lemma delete_walk_at nd key pre z bms :
  match delete_walk nd key (Pbookmark nd pre z :: bms) with
  | None => snd (find_from nd key) = false
  | Some st =>
      delete_at st =
      let '(nd', found) := delete_from nd key in
      if found then
        match delete_cleanup (Pbookmark nd' pre z :: bms) 256 with
        | Some r => Some (r, true)
        | None => None
        end
      else
        match relink (Pbookmark nd' pre z) bms with
        | Some r => Some (r, false)
        | None => None
        end
  end.
Proof.
  revert nd pre z bms. induction key as [| b key IH]; intros nd pre z bms.
  - cbn [delete_walk delete_at delete_from bm_n bm_prefix bm_k].
    now destruct (valid nd).
  - cbn [delete_walk delete_from find_from].
    destruct (child nd (Byte.to_nat b)) as [c |] eqn:E; [| reflexivity].
    specialize (IH c [b] 0 (Pbookmark nd pre z :: bms)).
    destruct (delete_walk c key (Pbookmark c [b] 0 :: Pbookmark nd pre z :: bms))
      as [st |] eqn:Ew; [| assumption].
    rewrite IH. clear IH.
    pose proof (delete_from_found c key) as Hf.
    pose proof (delete_from_absent c key) as Ha.
    destruct (delete_from c key) as [c' found]. simpl in Hf.
    destruct found.
    + destruct (live c') eqn:El.
      * rewrite (delete_cleanup_live (Pbookmark c' [b] 0)) by assumption.
        rewrite delete_cleanup_live
          by (cbn [bm_n]; apply live_set_child; eapply child_lt, E).
        reflexivity.
      * rewrite (delete_cleanup_dead (Pbookmark c' [b] 0) _ _ (Byte.to_nat b))
          by (assumption || reflexivity).
        rewrite delete_cleanup_prev
          by (pose proof (byte_slot b); lia).
        cbn [bm_n bm_prefix bm_k]. now rewrite Nat2Z.id.
    + rewrite <- Hf in Ha. specialize (Ha eq_refl). injection Ha as ->.
      cbn [relink prefix0 bm_prefix bm_n bm_k].
      now rewrite (set_child_id _ _ _ E).
Qed.

Theorem Delete_spec (t : PrefixTrie V) key :
  Delete t key =
  Some (MkPrefixTrie (fst (delete_from (root t) key)) (bookmarks t),
        snd (delete_from (root t) key)).
Proof.
  unfold Delete. pose proof (delete_walk_at (root t) key [] 0 []) as H.
  destruct (delete_walk (root t) key [Pbookmark (root t) [] 0]) as [st |].
  - rewrite H. destruct (delete_from (root t) key) as [nd' found].
    destruct found; cbn [delete_cleanup relink]; rewrite ?Z.eqb_refl;
      reflexivity.
  - rewrite delete_from_absent by assumption. now destruct t.
Qed.

End DeleteTheory.

Section Pruning.

Context {V : Type}.
Implicit Types (nd c : pnode V) (key path : list byte) (b : byte).

Lemma compact_spec nd :
  compact nd = true <->
  forall i c, child nd i = Some c -> live c = true /\ compact c = true.
Proof.
  destruct nd as [cs v f]. cbn [compact children]. rewrite forallb_forall.
  split.
  - intros H i c Hi. apply child_Some in Hi. cbn [children] in Hi.
    apply andb_true_iff. apply (H (Some c)).
    apply list_elem_of_In. eapply list_elem_of_lookup_2, Hi.
  - intros H [c |] Hin; [| reflexivity].
    apply list_elem_of_In, list_elem_of_lookup_1 in Hin. destruct Hin as [i Hi].
    apply andb_true_iff. apply (H i). now apply child_Some.
Qed.

Lemma compact_child nd i c :
  compact nd = true -> child nd i = Some c -> compact c = true.
Proof. intros H Hi. now apply (proj1 (compact_spec nd) H i c Hi). Qed.

Lemma compact_new : compact (@new_pnode V) = true.
Proof. reflexivity. Qed.

Lemma compact_set_child nd i x :
  compact nd = true ->
  match x with
  | Some c => live c = true /\ compact c = true
  | None => True
  end ->
  compact (set_child nd i x) = true.
Proof.
  intros Hnd Hx. apply compact_spec. intros j c Hj.
  destruct (decide (i = j)) as [<- | Hne].
  - pose proof (child_lt _ _ _ Hj) as Hlt. unfold set_child in Hlt.
    cbn [children] in Hlt. rewrite length_insert in Hlt.
    rewrite child_set_child_eq in Hj by assumption. subst x. assumption.
  - rewrite child_set_child_ne in Hj by assumption.
    eapply compact_spec; eauto.
Qed.

Lemma compact_set_valid nd f : compact (set_valid nd f) = compact nd.
Proof. now destruct nd. Qed.

Lemma compact_set_payload nd v : compact (set_payload nd v) = compact nd.
Proof. now destruct nd. Qed.

Lemma live_insert_fresh nd key v :
  wf_node nd = true -> live (insert_fresh nd key v) = true.
Proof.
  intros Hnd. destruct key as [| b key].
  - reflexivity.
  - rewrite insert_fresh_cons. apply live_set_child.
    rewrite (wf_node_length _ Hnd). apply byte_slot.
Qed.

Lemma compact_insert_fresh nd key v :
  compact nd = true -> compact (insert_fresh nd key v) = true.
Proof.
  revert nd. induction key as [| b key IH]; intros nd Hnd.
  - cbn [insert_fresh]. now rewrite compact_set_payload.
  - rewrite insert_fresh_cons. apply compact_set_child; [assumption |].
    split; [apply live_insert_fresh, wf_new | apply IH, compact_new].
Qed.

Lemma live_insert_from nd key v :
  wf_node nd = true -> live (insert_from nd key v) = true.
Proof.
  intros Hnd. destruct key as [| b key].
  - reflexivity.
  - cbn [insert_from]. destruct (child nd (Byte.to_nat b)) as [c |] eqn:E.
    + apply live_set_child. eapply child_lt, E.
    + now apply live_insert_fresh.
Qed.

Lemma compact_insert_from nd key v :
  wf_node nd = true -> compact nd = true ->
  compact (insert_from nd key v) = true.
Proof.
  revert nd. induction key as [| b key IH]; intros nd Hwf Hnd.
  - cbn [insert_from]. now rewrite compact_set_payload.
  - cbn [insert_from]. destruct (child nd (Byte.to_nat b)) as [c |] eqn:E.
    + apply compact_set_child; [assumption |].
      pose proof (wf_node_child _ _ _ Hwf E) as Hc.
      split; [now apply live_insert_from |].
      apply IH; [assumption |]. eapply compact_child; eauto.
    + now apply compact_insert_fresh.
Qed.

Lemma compact_delete_from nd key :
  compact nd = true -> compact (fst (delete_from nd key)) = true.
Proof.
  revert nd. induction key as [| b key IH]; intros nd Hnd; cbn [delete_from].
  - cbn [fst]. now rewrite compact_set_valid.
  - destruct (child nd (Byte.to_nat b)) as [c |] eqn:E; [| assumption].
    assert (compact c = true) as Hc by (eapply compact_child; eauto).
    specialize (IH c Hc). destruct (delete_from c key) as [c' found].
    cbn [fst] in IH. destruct found; [| assumption]. cbn [fst].
    apply compact_set_child; [assumption |].
    destruct (live c') eqn:El; [now split | exact I].
Qed.

(** A node that is kept holds a stored key at or below itself. *)
Lemma live_compact_stored nd :
  live nd = true -> compact nd = true ->
  exists key, snd (find_from nd key) = true.
Proof.
  induction nd as [cs v f IH] using pnode_ind. intros Hl Hc.
  unfold live in Hl. apply orb_true_iff in Hl. destruct Hl as [Hv | Hh].
  - exists []. assumption.
  - apply has_children_true in Hh. destruct Hh as (i & c & Hi & Hch).
    destruct (proj1 (compact_spec _) Hc i c Hch) as [Hlc Hcc].
    apply child_Some in Hch as Hlk. cbn [children] in Hlk.
    destruct (IH i c Hlk Hlc Hcc) as [key Hkey].
    exists (byte_of_uint16 (Z.of_nat i) :: key). cbn [find_from].
    rewrite byte_of_uint16_slot by assumption. now rewrite Hch.
Qed.

(** With no stored key below the root, every slot of the root is nil. *)
Lemma compact_empty nd :
  wf_node nd = true -> compact nd = true ->
  (forall key, key <> [] -> snd (find_from nd key) = false) ->
  children nd = replicate 256 None.
Proof.
  intros Hwf Hc Hnone. apply list_eq. intros i.
  destruct (decide (i < 256)%nat) as [Hi | Hi].
  - rewrite lookup_replicate_2 by assumption.
    destruct (children nd !! i) as [[c |] |] eqn:E.
    + exfalso. apply child_Some in E.
      destruct (proj1 (compact_spec _) Hc i c E) as [Hlc Hcc].
      destruct (live_compact_stored c Hlc Hcc) as [key Hkey].
      specialize (Hnone (byte_of_uint16 (Z.of_nat i) :: key)).
      cbn [find_from] in Hnone.
      rewrite byte_of_uint16_slot, E in Hnone by assumption.
      rewrite Hnone in Hkey; [discriminate | discriminate].
    + reflexivity.
    + apply lookup_ge_None in E. rewrite (wf_node_length _ Hwf) in E. lia.
  - rewrite lookup_ge_None_2 by (rewrite (wf_node_length _ Hwf); lia).
    symmetry. apply lookup_ge_None_2. rewrite length_replicate. lia.
Qed.

End Pruning.

Section ScanTheory.

Context {V : Type}.
Implicit Types (nd c : pnode V) (key path pre : list byte) (b : byte)
  (bm : pbookmark V) (rest st : list (pbookmark V)) (z : Z).

Lemma wf_bookmark_spec bm :
  wf_bookmark bm = true <-> wf_node (bm_n bm) = true /\ 0 <= bm_k bm <= 256.
Proof.
  unfold wf_bookmark. rewrite !andb_true_iff, !Z.leb_le. tauto.
Qed.

Lemma wf_bookmark_set_k bm z :
  wf_bookmark bm = true -> 0 <= z <= 256 -> wf_bookmark (set_k bm z) = true.
Proof.
  rewrite !wf_bookmark_spec. cbn [set_k bm_n bm_k]. tauto.
Qed.

Lemma uint16_succ z : 0 <= z < 256 -> uint16 (z + 1) = z + 1.
Proof. intros Hz. unfold uint16. apply Z.mod_small. lia. Qed.

(** ** The fuel is enough *)

Lemma cost_eq nd : cost nd = (256 + cost_list (children nd))%nat.
Proof.
  destruct nd as [cs v f]. reflexivity.
Qed.

Lemma drop_slot (cs : list (option (pnode V))) (i : nat) :
  drop i cs =
  match cs !! i with
  | Some x => x :: drop (S i) cs
  | None => []
  end.
Proof.
  destruct (cs !! i) as [x |] eqn:E.
  - now apply drop_S.
  - apply drop_ge. now apply lookup_ge_None.
Qed.

Lemma drop_slot_None (cs : list (option (pnode V))) (i : nat) :
  cs !! i = None -> drop (S i) cs = [].
Proof. intros E. apply drop_ge. apply lookup_ge_None in E. lia. Qed.

Lemma cost_from_nil nd z :
  0 <= z < 256 -> child nd (Z.to_nat z) = None ->
  cost_from nd z = S (cost_from nd (z + 1)).
Proof.
  intros Hz Hc. unfold cost_from.
  replace (Z.to_nat (z + 1)) with (S (Z.to_nat z)) by lia.
  replace (Z.to_nat (256 - z)) with (S (Z.to_nat (256 - (z + 1)))) by lia.
  rewrite (drop_slot _ (Z.to_nat z)). unfold child in Hc.
  destruct (children nd !! Z.to_nat z) as [x |] eqn:E.
  - subst x. reflexivity.
  - now rewrite (drop_slot_None _ _ E).
Qed.

Lemma cost_from_child nd z c :
  0 <= z < 256 -> child nd (Z.to_nat z) = Some c ->
  cost_from nd z = S (S (cost c + cost_from nd (z + 1))).
Proof.
  intros Hz Hc. unfold cost_from.
  replace (Z.to_nat (z + 1)) with (S (Z.to_nat z)) by lia.
  replace (Z.to_nat (256 - z)) with (S (Z.to_nat (256 - (z + 1)))) by lia.
  rewrite (drop_slot _ (Z.to_nat z)). apply child_Some in Hc. rewrite Hc.
  cbn [cost_list]. lia.
Qed.

Lemma cost_from_end nd z :
  wf_node nd = true -> 256 <= z -> cost_from nd z = O.
Proof.
  intros Hwf Hz. unfold cost_from.
  rewrite drop_ge by (rewrite (wf_node_length _ Hwf); lia).
  cbn [cost_list]. lia.
Qed.

Lemma cost_from_0 nd : cost_from nd 0 = cost nd.
Proof. unfold cost_from. rewrite cost_eq. reflexivity. Qed.

Lemma list_sum_cons (a : nat) (l : list nat) :
  list_sum (a :: l) = (a + list_sum l)%nat.
Proof. reflexivity. Qed.

Lemma scan_pop_fuel bm rest bm1 rest1 :
  bm_k bm = 256 ->
  Forall (fun x => wf_bookmark x = true) rest ->
  scan_pop bm rest = (bm1, rest1, false) ->
  wf_bookmark bm1 = true /\ bm_k bm1 <> 256 /\
  Forall (fun x => wf_bookmark x = true) rest1 /\
  (scan_fuel (set_k bm1 (bm_k bm1 + 1)) rest1 < scan_fuel bm rest)%nat.
Proof.
  revert bm. induction rest as [| x rest IH]; intros bm Hk Hok Hpop.
  - cbn [scan_pop] in Hpop. rewrite Hk in Hpop. discriminate.
  - cbn [scan_pop] in Hpop. rewrite Hk in Hpop. cbn [Z.eqb Pos.eqb] in Hpop.
    inversion Hok as [| ? ? Hx Hrest]; subst.
    destruct (Z.eqb_spec (bm_k x) 256) as [Hx256 | Hx256].
    + destruct (IH x Hx256 Hrest Hpop) as (H1 & H2 & H3 & H4).
      repeat split; try assumption.
      apply wf_bookmark_spec in Hx. destruct Hx as [Hwx _].
      unfold scan_fuel in *. cbn [map]; rewrite ?list_sum_cons.
      rewrite (cost_from_end (bm_n x) (bm_k x)) in H4 by (assumption || lia).
      lia.
    + destruct rest as [| y rest'].
      * cbn [scan_pop] in Hpop.
        destruct (Z.eqb_spec (bm_k x) 256); [contradiction |].
        injection Hpop as <- <-. repeat split; try assumption.
        unfold scan_fuel. cbn [map set_k bm_n bm_k]; rewrite ?list_sum_cons. lia.
      * cbn [scan_pop] in Hpop.
        destruct (Z.eqb_spec (bm_k x) 256); [contradiction |].
        injection Hpop as <- <-. repeat split; try assumption.
        unfold scan_fuel. cbn [map set_k bm_n bm_k]; rewrite ?list_sum_cons. lia.
Qed.

Lemma scan_pop_end bm rest bm1 rest1 :
  scan_pop bm rest = (bm1, rest1, true) ->
  rest1 = [] /\ bm_k bm1 = 256 /\ In bm1 (bm :: rest) /\
  bm_k bm = 256 /\ Forall (fun x => bm_k x = 256) rest.
Proof.
  revert bm. induction rest as [| x rest IH]; intros bm Hpop.
  - cbn [scan_pop] in Hpop.
    destruct (Z.eqb_spec (bm_k bm) 256); [| discriminate].
    injection Hpop as <- <-. repeat split; try assumption;
      [now left | constructor].
  - cbn [scan_pop] in Hpop.
    destruct (Z.eqb_spec (bm_k bm) 256) as [Hk | Hk].
    + destruct (IH x Hpop) as (H1 & H2 & H3 & H4 & H5).
      repeat split; try assumption; [now right | now constructor].
    + destruct rest; cbn [scan_pop] in Hpop; discriminate.
Qed.

Theorem scan_loop_terminates fuel bm rest :
  Forall (fun x => wf_bookmark x = true) (bm :: rest) ->
  (scan_fuel bm rest <= fuel)%nat ->
  exists r, scan_loop fuel bm rest = Some r.
Proof.
  revert bm rest. induction fuel as [| fuel IH]; intros bm rest Hok Hfuel.
  - unfold scan_fuel in Hfuel. lia.
  - inversion Hok as [| ? ? Hbm Hrest]; subst.
    pose proof (proj1 (wf_bookmark_spec bm) Hbm) as [Hwf Hk].
    cbn [scan_loop]. destruct (Z.ltb_spec (bm_k bm) 256) as [Hlt | Hge].
    + destruct (child (bm_n bm) (Z.to_nat (bm_k bm))) as [c |] eqn:E.
      * destruct (valid c); [eauto |]. apply IH.
        -- constructor; [| assumption]. apply wf_bookmark_spec.
           cbn [bm_n bm_k]. split; [| lia]. eapply wf_node_child; eauto.
        -- unfold scan_fuel in *. cbn [map bm_n bm_k]; rewrite ?list_sum_cons.
           rewrite (cost_from_child _ _ c) in Hfuel by (assumption || lia).
           rewrite cost_from_0. lia.
      * rewrite uint16_succ by lia. apply IH.
        -- constructor; [| assumption]. apply wf_bookmark_set_k; [assumption | lia].
        -- unfold scan_fuel in *. cbn [set_k bm_n bm_k].
           rewrite cost_from_nil in Hfuel by (assumption || lia). lia.
    + assert (bm_k bm = 256) as Hk256 by lia.
      destruct (scan_pop bm rest) as [[bm1 rest1] [|]] eqn:Epop; [eauto |].
      destruct (scan_pop_fuel _ _ _ _ Hk256 Hrest Epop) as (H1 & H2 & H3 & H4).
      pose proof (proj1 (wf_bookmark_spec bm1) H1) as [_ Hk1].
      rewrite uint16_succ by lia. apply IH.
      * constructor; [| assumption]. apply wf_bookmark_set_k; [assumption | lia].
      * lia.
Qed.

End ScanTheory.

Section ScanEnumeration.

Context {V : Type}.
Implicit Types (nd c : pnode V) (key path pre : list byte) (b : byte)
  (bm : pbookmark V) (rest st : list (pbookmark V)) (z : Z)
  (t : PrefixTrie V).

Lemma entries_eq pre nd :
  entries pre nd =
  (if valid nd then [(pre, value nd)] else [])
  ++ entries_from pre O (children nd).
Proof.
  destruct nd as [cs v f]. cbn [entries children valid value]. f_equal.
  generalize O. induction cs as [| [c |] cs IH]; intros i; simpl.
  - reflexivity.
  - f_equal. apply IH.
  - apply IH.
Qed.

Lemma pending_bm_nil bm z :
  0 <= z -> child (bm_n bm) (Z.to_nat z) = None ->
  pending_bm bm z = pending_bm bm (z + 1).
Proof.
  intros Hz Hc. unfold pending_bm.
  replace (Z.to_nat (z + 1)) with (S (Z.to_nat z)) by lia.
  rewrite (drop_slot _ (Z.to_nat z)). unfold child in Hc.
  destruct (children (bm_n bm) !! Z.to_nat z) as [x |] eqn:E.
  - subst x. reflexivity.
  - now rewrite (drop_slot_None _ _ E).
Qed.

Lemma pending_bm_child bm z c :
  0 <= z -> child (bm_n bm) (Z.to_nat z) = Some c ->
  pending_bm bm z =
  entries (bm_prefix bm ++ [byte_of_uint16 z]) c ++ pending_bm bm (z + 1).
Proof.
  intros Hz Hc. unfold pending_bm.
  replace (Z.to_nat (z + 1)) with (S (Z.to_nat z)) by lia.
  rewrite (drop_slot _ (Z.to_nat z)). apply child_Some in Hc. rewrite Hc.
  cbn [entries_from]. now rewrite Z2Nat.id.
Qed.

Lemma pending_bm_end bm z :
  wf_node (bm_n bm) = true -> 256 <= z -> pending_bm bm z = [].
Proof.
  intros Hwf Hz. unfold pending_bm.
  now rewrite drop_ge by (rewrite (wf_node_length _ Hwf); lia).
Qed.

Lemma pending_push bm rest c :
  0 <= bm_k bm -> child (bm_n bm) (Z.to_nat (bm_k bm)) = Some c ->
  let bm' := Pbookmark c (bm_prefix bm ++ [byte_of_uint16 (bm_k bm)]) 0 in
  pending bm rest =
  (if valid c then [(bm_prefix bm', value c)] else [])
  ++ pending bm' (bm :: rest).
Proof.
  intros Hk Hc bm'. unfold pending. cbn [map concat].
  rewrite (pending_bm_child _ _ _ Hk Hc), entries_eq.
  unfold pending_bm at 3. subst bm'. cbn [bm_n bm_prefix bm_k].
  change (Z.to_nat 0) with O. rewrite drop_0.
  now rewrite <- !app_assoc.
Qed.

Lemma scan_pop_pending bm rest bm1 rest1 :
  bm_k bm = 256 -> wf_node (bm_n bm) = true ->
  Forall (fun x => wf_bookmark x = true) rest ->
  scan_pop bm rest = (bm1, rest1, false) ->
  pending bm rest = pending (set_k bm1 (bm_k bm1 + 1)) rest1.
Proof.
  revert bm. induction rest as [| x rest IH]; intros bm Hk Hwf Hok Hpop.
  - cbn [scan_pop] in Hpop. rewrite Hk in Hpop. discriminate.
  - cbn [scan_pop] in Hpop. rewrite Hk in Hpop. cbn [Z.eqb Pos.eqb] in Hpop.
    inversion Hok as [| ? ? Hx Hrest]; subst.
    apply wf_bookmark_spec in Hx. destruct Hx as [Hwx Hkx].
    unfold pending at 1. rewrite pending_bm_end by (assumption || lia).
    cbn [map concat app].
    destruct (Z.eqb_spec (bm_k x) 256) as [Hx256 | Hx256].
    + rewrite <- (IH x Hx256 Hwx Hrest Hpop). unfold pending.
      now rewrite !pending_bm_end by (assumption || lia).
    + assert (scan_pop x rest = (x, rest, false)) as Hx'.
      { destruct rest; cbn [scan_pop];
          destruct (Z.eqb_spec (bm_k x) 256); congruence. }
      rewrite Hx' in Hpop. injection Hpop as <- <-. reflexivity.
Qed.

Lemma pending_exhausted bm rest :
  bm_k bm = 256 -> Forall (fun x => bm_k x = 256) rest ->
  Forall (fun x => wf_bookmark x = true) (bm :: rest) ->
  pending bm rest = [].
Proof.
  intros Hk Hall Hok. inversion Hok as [| ? ? Hbm Hrest]; subst.
  apply wf_bookmark_spec in Hbm. destruct Hbm as [Hwf _].
  unfold pending. rewrite pending_bm_end by (assumption || lia).
  cbn [app]. clear Hok Hk Hwf. induction rest as [| x rest IH]; [reflexivity |].
  inversion Hall; inversion Hrest; subst. cbn [map concat].
  match goal with H : wf_bookmark x = true |- _ =>
    apply wf_bookmark_spec in H; destruct H as [Hwx _] end.
  rewrite pending_bm_end by (assumption || lia). cbn [app]. now apply IH.
Qed.

(** One call: either the cursor moves to the next pending pair, or
    nothing is pending and the stack is left with one exhausted bookmark. *)
Theorem scan_loop_sound fuel bm rest (found : bool) st :
  Forall (fun x => wf_bookmark x = true) (bm :: rest) ->
  scan_loop fuel bm rest = Some (found, st) ->
  Forall (fun x => wf_bookmark x = true) st /\
  if found then
    exists bm' rest',
      st = bm' :: rest' /\
      pending bm rest = (bm_prefix bm', value (bm_n bm')) :: pending bm' rest'
  else
    pending bm rest = [] /\ exists bm1, st = [bm1] /\ bm_k bm1 = 256.
Proof.
  revert bm rest. induction fuel as [| fuel IH]; intros bm rest Hok Hscan;
    [discriminate |].
  inversion Hok as [| ? ? Hbm Hrest]; subst.
  pose proof (proj1 (wf_bookmark_spec bm) Hbm) as [Hwf Hk].
  cbn [scan_loop] in Hscan.
  destruct (Z.ltb_spec (bm_k bm) 256) as [Hlt | Hge].
  - destruct (child (bm_n bm) (Z.to_nat (bm_k bm))) as [c |] eqn:E.
    + assert (Forall (fun x => wf_bookmark x = true)
                (Pbookmark c (bm_prefix bm ++ [byte_of_uint16 (bm_k bm)]) 0
                 :: bm :: rest)) as Hok'.
      { constructor; [| assumption]. apply wf_bookmark_spec.
        cbn [bm_n bm_k]. split; [| lia]. eapply wf_node_child; eauto. }
      pose proof (pending_push bm rest c (proj1 Hk) E) as Hp. cbn zeta in Hp.
      destruct (valid c) eqn:Ev.
      * injection Hscan as <- <-. split; [assumption |].
        eexists _, _. split; [reflexivity |]. exact Hp.
      * rewrite Hp. cbn [app]. now apply IH.
    + rewrite uint16_succ in Hscan by lia.
      replace (pending bm rest)
        with (pending (set_k bm (bm_k bm + 1)) rest).
      * apply IH; [| assumption]. constructor; [| assumption].
        apply wf_bookmark_set_k; [assumption | lia].
      * unfold pending. cbn [set_k bm_k]. f_equal. symmetry.
        now apply (pending_bm_nil bm).
  - assert (bm_k bm = 256) as Hk256 by lia.
    destruct (scan_pop bm rest) as [[bm1 rest1] [|]] eqn:Epop.
    + injection Hscan as <- <-.
      destruct (scan_pop_end _ _ _ _ Epop) as (-> & Hk1 & Hin & _ & Hall).
      split; [| split].
      * constructor; [| constructor].
        apply (proj1 (Forall_forall _ _) Hok). now apply list_elem_of_In.
      * now apply pending_exhausted.
      * now exists bm1.
    + destruct (scan_pop_fuel _ _ _ _ Hk256 Hrest Epop) as (H1 & H2 & H3 & _).
      pose proof (proj1 (wf_bookmark_spec bm1) H1) as [_ Hk1].
      rewrite uint16_succ in Hscan by lia.
      rewrite (scan_pop_pending _ _ _ _ Hk256 Hwf Hrest Epop).
      apply IH; [| assumption]. constructor; [| assumption].
      apply wf_bookmark_set_k; [assumption | lia].
Qed.

End ScanEnumeration.

Section ScanCalls.

Context {V : Type}.
Implicit Types (nd c : pnode V) (key path pre : list byte) (b : byte)
  (bm : pbookmark V) (rest st : list (pbookmark V)) (z : Z)
  (t : PrefixTrie V).

Lemma wf_trie_spec t :
  wf_trie t = true <->
  wf_node (root t) = true /\
  Forall (fun x => wf_bookmark x = true) (bookmarks t).
Proof.
  unfold wf_trie. rewrite andb_true_iff, forallb_forall, Forall_forall.
  split; intros [H1 H2]; (split; [assumption |]); intros x Hx; apply H2;
    now apply list_elem_of_In.
Qed.

Lemma wf_root_bookmark t :
  wf_node (root t) = true ->
  Forall (fun x => wf_bookmark x = true) [Pbookmark (root t) [] 0].
Proof.
  intros H. constructor; [| constructor]. apply wf_bookmark_spec.
  cbn [bm_n bm_k]. split; [assumption | lia].
Qed.

(** Scan returns, leaves the nodes alone, and moves the cursor by one
    pending pair or reports that none is left. *)
Theorem Scan_spec t :
  wf_trie t = true ->
  exists found t',
    Scan t = Some (found, t') /\ root t' = root t /\ wf_trie t' = true /\
    if found then
      exists bm' rest',
        bookmarks t' = bm' :: rest' /\
        remaining t = (bm_prefix bm', value (bm_n bm')) :: remaining t'
    else
      remaining t = [] /\ exists bm1, bookmarks t' = [bm1] /\ bm_k bm1 = 256.
Proof.
  intros Hwf. apply wf_trie_spec in Hwf. destruct Hwf as [Hroot Hbms].
  assert (exists bm rest,
             Forall (fun x => wf_bookmark x = true) (bm :: rest) /\
             remaining t = pending bm rest /\
             Scan t =
             match scan_loop (scan_fuel bm rest) bm rest with
             | Some (found, st) => Some (found, MkPrefixTrie (root t) st)
             | None => None
             end) as (bm & rest & Hok & Hrem & HScan).
  { unfold Scan, remaining. destruct (bookmarks t) as [| bm rest].
    - exists (Pbookmark (root t) [] 0), [].
      split; [now apply wf_root_bookmark |]. now split.
    - exists bm, rest. split; [assumption |]. now split. }
  destruct (scan_loop_terminates (scan_fuel bm rest) bm rest Hok (le_n _))
    as [[found st] Hr].
  destruct (scan_loop_sound _ _ _ _ _ Hok Hr) as [Hst Hres].
  exists found, (MkPrefixTrie (root t) st). rewrite HScan, Hr.
  split; [reflexivity |]. split; [reflexivity |]. split.
  - apply wf_trie_spec. now split.
  - rewrite Hrem. destruct found.
    + destruct Hres as (bm' & rest' & -> & Hp). exists bm', rest'.
      split; [reflexivity | exact Hp].
    + destruct Hres as (Hp & bm1 & -> & Hk). split; [assumption |]. now exists bm1.
Qed.

(** Once the stack holds a single exhausted bookmark, Scan returns false
    and changes nothing. *)
Lemma Scan_stuck t bm1 :
  bookmarks t = [bm1] -> bm_k bm1 = 256 -> Scan t = Some (false, t).
Proof.
  intros Hb Hk. unfold Scan. rewrite Hb. unfold scan_fuel.
  cbn [scan_loop scan_pop]. rewrite Hk. cbn [Z.ltb Z.eqb Z.compare Pos.compare Pos.compare_cont Pos.eqb].
  destruct t as [r bs]. cbn [bookmarks root] in *. now subst bs.
Qed.

Theorem Scan_false_again t t' :
  wf_trie t = true -> Scan t = Some (false, t') -> Scan t' = Some (false, t').
Proof.
  intros Hwf HS. destruct (Scan_spec t Hwf) as (found & t2 & HS2 & _ & _ & Hres).
  rewrite HS in HS2. injection HS2 as <- <-.
  destruct Hres as (_ & bm1 & Hb & Hk). eapply Scan_stuck; eauto.
Qed.

(** The whole loop yields what was pending, and ends in a state from
    which Scan keeps returning false. *)
Theorem scan_all_spec fuel t :
  wf_trie t = true -> (length (remaining t) < fuel)%nat ->
  exists t',
    scan_all fuel t = Some (remaining t, t') /\ root t' = root t /\
    wf_trie t' = true /\ Scan t' = Some (false, t').
Proof.
  revert t. induction fuel as [| fuel IH]; intros t Hwf Hlen; [lia |].
  destruct (Scan_spec t Hwf) as (found & t1 & HS & Hroot & Hwf1 & Hres).
  cbn [scan_all]. rewrite HS. destruct found.
  - destruct Hres as (bm' & rest' & Hb & Hrem). rewrite Hrem in *.
    cbn [length] in Hlen. unfold Pair. rewrite Hb.
    destruct (IH t1 Hwf1 ltac:(lia)) as (t' & Hall & Hroot' & Hwf' & HS').
    rewrite Hall. exists t'. repeat split; try assumption. congruence.
  - destruct Hres as (Hrem & bm1 & Hb & Hk). rewrite Hrem. exists t1.
    repeat split; try assumption. eapply Scan_stuck; eauto.
Qed.

End ScanCalls.

Section Calls.

Context {V : Type}.
Implicit Types (nd c : pnode V) (key path pre : list byte) (b : byte)
  (t : PrefixTrie V) (o : op V) (os : list (op V)) (v : option V).

Lemma wf_NewPrefixTrie : wf_trie (@NewPrefixTrie V) = true.
Proof. reflexivity. Qed.

Lemma wf_Insert t key v : wf_trie t = true -> wf_trie (Insert t key v) = true.
Proof.
  rewrite !wf_trie_spec. intros [Hr Hb]. split; [| assumption].
  now apply wf_insert_from.
Qed.

Lemma wf_Delete t key t' (found : bool) :
  wf_trie t = true -> Delete t key = Some (t', found) -> wf_trie t' = true.
Proof.
  rewrite Delete_spec. intros Hwf H. injection H as <- _.
  apply wf_trie_spec in Hwf. destruct Hwf as [Hr Hb].
  apply wf_trie_spec. split; [| assumption]. now apply wf_delete_from.
Qed.

Lemma Find_Delete_ne t key key' t' (found : bool) :
  key' <> key -> Delete t key = Some (t', found) ->
  snd (Find t' key') = snd (Find t key') /\
  (snd (Find t key') = true -> Find t' key' = Find t key').
Proof.
  rewrite Delete_spec. intros Hne H. injection H as <- _.
  now apply find_delete_ne.
Qed.

(** Every call returns, keeps the array type, and keeps the entry of a
    key it does not write. *)
Lemma step_spec t o :
  wf_trie t = true ->
  exists t',
    step t o = Some t' /\ wf_trie t' = true /\
    forall key v, ~ touches key o ->
                  Find t key = (v, true) -> Find t' key = (v, true).
Proof.
  intros Hwf. destruct o as [key' v' | key' |]; cbn [step].
  - exists (Insert t key' v'). split; [reflexivity |].
    split; [now apply wf_Insert |]. intros key v Hne Hf.
    unfold Find, Insert. cbn [root]. rewrite find_insert_ne; try assumption.
    + now apply wf_trie_spec in Hwf.
    + intros ->. now apply Hne.
  - pose proof (Delete_spec t key') as HD. rewrite HD. eexists.
    split; [reflexivity |]. split; [eapply wf_Delete; eauto |].
    intros key v Hne Hf.
    assert (key <> key') as Hne' by (intros ->; now apply Hne).
    destruct (Find_Delete_ne t key' key _ _ Hne' HD) as [_ H].
    rewrite H; [assumption |]. now rewrite Hf.
  - destruct (Scan_spec t Hwf) as (found & t' & HS & Hroot & Hwf' & _).
    rewrite HS. exists t'. split; [reflexivity |]. split; [assumption |].
    intros key v _. unfold Find. now rewrite Hroot.
Qed.

Lemma run_spec t os :
  wf_trie t = true ->
  exists t',
    run t os = Some t' /\ wf_trie t' = true /\
    forall key v, Forall (fun o => ~ touches key o) os ->
                  Find t key = (v, true) -> Find t' key = (v, true).
Proof.
  revert t. induction os as [| o os IH]; intros t Hwf.
  - exists t. now repeat split.
  - destruct (step_spec t o Hwf) as (t1 & Hs & Hwf1 & Hkeep).
    destruct (IH t1 Hwf1) as (t' & Hr & Hwf' & Hkeep').
    exists t'. cbn [run]. rewrite Hs. repeat split; try assumption.
    intros key v Hall Hf. inversion Hall; subst.
    apply Hkeep'; [assumption |]. now apply Hkeep.
Qed.

Lemma run_app t os1 os2 :
  run t (os1 ++ os2) =
  match run t os1 with
  | Some t' => run t' os2
  | None => None
  end.
Proof.
  revert t. induction os1 as [| o os1 IH]; intros t; [reflexivity |].
  cbn [run app]. destruct (step t o); [apply IH | reflexivity].
Qed.

(** ** The pruning invariant along calls *)

Lemma compact_step t o t' :
  wf_trie t = true -> compact (root t) = true -> step t o = Some t' ->
  compact (root t') = true.
Proof.
  intros Hwf Hc. destruct o as [key v | key |]; cbn [step].
  - intros H. injection H as <-. cbn [Insert root].
    apply compact_insert_from; [| assumption]. now apply wf_trie_spec in Hwf.
  - rewrite Delete_spec. intros H. injection H as <-. cbn [root].
    now apply compact_delete_from.
  - destruct (Scan_spec t Hwf) as (found & t1 & HS & Hroot & _).
    rewrite HS. intros H. injection H as <-. now rewrite Hroot.
Qed.

Lemma compact_run t os t' :
  wf_trie t = true -> compact (root t) = true -> run t os = Some t' ->
  compact (root t') = true.
Proof.
  revert t. induction os as [| o os IH]; intros t Hwf Hc; cbn [run].
  - intros H. now injection H as <-.
  - destruct (step_spec t o Hwf) as (t1 & Hs & Hwf1 & _). rewrite Hs.
    intros Hr. apply (IH t1); [assumption | | assumption].
    exact (compact_step t o t1 Hwf Hc Hs).
Qed.

Lemma compact_walk nd path x :
  compact nd = true -> walk nd path = Some x -> path <> [] -> live x = true.
Proof.
  revert nd. induction path as [| p path IH]; intros nd Hc Hw Hne;
    [congruence |].
  cbn [walk] in Hw. destruct (child nd (Byte.to_nat p)) as [c |] eqn:E;
    [| discriminate].
  destruct (proj1 (compact_spec nd) Hc _ _ E) as [Hl Hcc].
  destruct path as [| p' path].
  - injection Hw as <-. assumption.
  - apply (IH c Hcc Hw). discriminate.
Qed.

Lemma find_new key : find_from (@new_pnode V) key = (None, false).
Proof.
  destruct key as [| b key]; [reflexivity |]. cbn [find_from].
  now rewrite child_new.
Qed.

Lemma stored_after_inserts (kvs : list (list byte * option V)) t t' :
  wf_trie t = true ->
  run t (map (fun kv => OpInsert (fst kv) (snd kv)) kvs) = Some t' ->
  forall key,
    snd (Find t' key) = true ->
    snd (Find t key) = true \/ In key (map fst kvs).
Proof.
  revert t. induction kvs as [| [k v] kvs IH]; intros t Hwf Hr key Hf.
  - injection Hr as <-. now left.
  - cbn [map run step fst snd] in Hr.
    destruct (IH _ (wf_Insert t k v Hwf) Hr key Hf) as [H | H];
      [| right; now right].
    destruct (decide (key = k)) as [-> | Hne].
    + right. now left.
    + left. unfold Find, Insert in H. cbn [root] in H.
      rewrite find_insert_ne in H; try assumption.
      now apply wf_trie_spec in Hwf.
Qed.

Lemma stored_after_deletes (ds : list (list byte)) t t' :
  run t (map OpDelete ds) = Some t' ->
  forall key,
    snd (Find t' key) = true -> snd (Find t key) = true /\ ~ In key ds.
Proof.
  revert t. induction ds as [| d ds IH]; intros t Hr key Hf.
  - injection Hr as <-. split; [assumption | intros []].
  - cbn [map run step] in Hr. pose proof (Delete_spec t d) as HD.
    rewrite HD in Hr. destruct (IH _ Hr key Hf) as [H Hnin].
    destruct (decide (key = d)) as [-> | Hne].
    + exfalso. unfold Find in H. cbn [root] in H.
      rewrite find_delete_eq in H. discriminate.
    + destruct (Find_Delete_ne t d key _ _ Hne HD) as [Hsnd _].
      rewrite Hsnd in H. split; [assumption |]. intros [-> | Hin]; auto.
Qed.

Lemma stored_walk nd key :
  snd (find_from nd key) = true <->
  exists x, walk nd key = Some x /\ valid x = true.
Proof.
  rewrite find_walk. destruct (walk nd key) as [x |]; cbn [snd].
  - split; [eauto |]. now intros (y & [= <-] & H).
  - split; [discriminate | now intros (y & H & _)].
Qed.

Lemma walk_app nd path s x :
  walk nd (path ++ s) = Some x -> exists y, walk nd path = Some y.
Proof.
  revert nd. induction path as [| p path IH]; intros nd; cbn [walk app].
  - eauto.
  - destruct (child nd (Byte.to_nat p)) as [c |]; [apply IH | discriminate].
Qed.

(** Delete never writes a payload. *)
Lemma walk_delete nd key path x' :
  walk (fst (delete_from nd key)) path = Some x' ->
  exists x, walk nd path = Some x /\ value x' = value x.
Proof.
  revert nd path. induction key as [| b key IH]; intros nd path;
    cbn [delete_from].
  - cbn [fst]. destruct path as [| p path]; cbn [walk].
    + intros [= <-]. now exists nd.
    + intros H. now exists x'.
  - destruct (child nd (Byte.to_nat b)) as [c |] eqn:E; [| now exists x'].
    specialize (IH c). destruct (delete_from c key) as [c' found].
    cbn [fst] in IH. destruct found; [| now exists x']. cbn [fst].
    destruct path as [| p path]; cbn [walk].
    + intros [= <-]. now exists nd.
    + destruct (decide (Byte.to_nat b = Byte.to_nat p)) as [Hb | Hb].
      * rewrite <- Hb, E. rewrite child_set_child_eq by (eapply child_lt, E).
        destruct (live c'); [apply IH | discriminate].
      * rewrite child_set_child_ne by assumption. intros H. now exists x'.
Qed.

End Calls.

Section Order.

Context {V : Type}.
Implicit Types (nd c : pnode V) (key path pre s : list byte) (b : byte)
  (cs : list (option (pnode V))) (v : option V).

Lemma lex_lt_irrefl key : lex_lt key key = false.
Proof.
  induction key as [| b key IH]; [reflexivity |]. cbn [lex_lt].
  rewrite Nat.ltb_irrefl, Nat.eqb_refl. exact IH.
Qed.

Lemma lex_lt_extend pre b s : lex_lt pre (pre ++ b :: s) = true.
Proof.
  induction pre as [| p pre IH]; [reflexivity |]. cbn [lex_lt app].
  rewrite Nat.eqb_refl, IH. apply orb_true_r.
Qed.

Lemma lex_lt_slot pre b1 s1 b2 s2 :
  (Byte.to_nat b1 < Byte.to_nat b2)%nat ->
  lex_lt (pre ++ b1 :: s1) (pre ++ b2 :: s2) = true.
Proof.
  intros Hlt. induction pre as [| p pre IH]; cbn [lex_lt app].
  - now rewrite (proj2 (Nat.ltb_lt _ _) Hlt).
  - rewrite Nat.eqb_refl, IH. apply orb_true_r.
Qed.

Lemma elem_of_entries_from pre (i : nat) cs (kv : list byte * option V) :
  kv ∈ entries_from pre i cs <->
  exists j c,
    cs !! j = Some (Some c) /\
    kv ∈ entries (pre ++ [byte_of_uint16 (Z.of_nat (i + j))]) c.
Proof.
  revert i. induction cs as [| c0 cs IH]; intros i; cbn [entries_from].
  - split; [intros H; inversion H | intros (j & c & H & _); destruct j; discriminate].
  - rewrite elem_of_app, IH. split.
    + intros [H | (j & c & Hj & H)].
      * destruct c0 as [c |]; [| inversion H]. exists O, c.
        now rewrite Nat.add_0_r.
      * exists (S j), c. split; [assumption |].
        now rewrite Nat.add_succ_r.
    + intros ([| j] & c & Hj & H).
      * left. cbn in Hj. injection Hj as ->. now rewrite Nat.add_0_r in H.
      * right. exists j, c. split; [assumption |].
        now rewrite Nat.add_succ_r in H.
Qed.

Lemma entries_key nd :
  forall pre key v, (key, v) ∈ entries pre nd -> exists s, key = pre ++ s.
Proof.
  induction nd as [cs w f IH] using pnode_ind. intros pre key v.
  rewrite entries_eq, elem_of_app. cbn [children valid value].
  intros [H | H].
  - exists []. destruct f; [| inversion H].
    apply list_elem_of_singleton in H. injection H as -> _.
    now rewrite app_nil_r.
  - apply elem_of_entries_from in H. destruct H as (j & c & Hj & H).
    destruct (IH j c Hj _ _ _ H) as [s ->]. eexists.
    rewrite <- app_assoc. reflexivity.
Qed.

Lemma entries_from_key pre (i : nat) cs key v :
  (key, v) ∈ entries_from pre i cs ->
  exists (j : nat) s,
    (i <= j < i + length cs)%nat /\
    key = pre ++ byte_of_uint16 (Z.of_nat j) :: s.
Proof.
  intros H. apply elem_of_entries_from in H. destruct H as (j & c & Hj & H).
  apply entries_key in H. destruct H as [s ->].
  exists (i + j)%nat, s. apply lookup_lt_Some in Hj.
  split; [lia |]. now rewrite <- app_assoc.
Qed.

(** The pairs listed at and below a node are the stored ones. *)
Lemma elem_of_entries nd :
  wf_node nd = true ->
  forall pre key v,
    (key, v) ∈ entries pre nd <->
    exists s, key = pre ++ s /\ find_from nd s = (v, true).
Proof.
  induction nd as [cs w f IH] using pnode_ind. intros Hwf pre key v.
  rewrite entries_eq, elem_of_app. cbn [children valid value]. split.
  - intros [H | H].
    + destruct f; [| inversion H].
      apply list_elem_of_singleton in H. injection H as -> ->.
      exists []. split; [now rewrite app_nil_r | reflexivity].
    + apply elem_of_entries_from in H. destruct H as (j & c & Hj & H).
      assert (child (Pnode cs w f) j = Some c) as Hc by now apply child_Some.
      apply (IH j c Hj (wf_node_child _ _ _ Hwf Hc)) in H.
      destruct H as (s & -> & Hf).
      exists (byte_of_uint16 (Z.of_nat j) :: s).
      split; [now rewrite <- app_assoc |]. cbn [find_from].
      rewrite byte_of_uint16_slot.
      * now rewrite Hc.
      * apply lookup_lt_Some in Hj.
        pose proof (wf_node_length _ Hwf) as Hl. cbn [children] in Hl. lia.
  - intros ([| b s] & -> & Hf).
    + left. cbn [find_from value valid] in Hf. injection Hf as -> ->.
      rewrite app_nil_r. now apply list_elem_of_singleton.
    + right. cbn [find_from] in Hf.
      destruct (child (Pnode cs w f) (Byte.to_nat b)) as [c |] eqn:Hc;
        [| discriminate].
      apply child_Some in Hc as Hj. cbn [children] in Hj.
      apply elem_of_entries_from. exists (Byte.to_nat b), c.
      split; [assumption |]. cbn [Nat.add]. rewrite byte_of_uint16_to_nat.
      apply (IH _ c Hj (wf_node_child _ _ _ Hwf Hc)).
      exists s. split; [now rewrite <- app_assoc | assumption].
Qed.

Lemma entries_from_sorted pre (i : nat) cs :
  (forall j c, cs !! j = Some (Some c) ->
     forall pre', StronglySorted (fun a a' => lex_lt a a' = true)
                    (fst <$> entries pre' c)) ->
  (i + length cs <= 256)%nat ->
  StronglySorted (fun a a' => lex_lt a a' = true)
    (fst <$> entries_from pre i cs).
Proof.
  revert i. induction cs as [| c0 cs IH]; intros i Hch Hlen;
    cbn [entries_from].
  - constructor.
  - cbn [length] in Hlen. rewrite fmap_app. apply StronglySorted_app_2.
    + intros x1 x2 H1 H2. apply list_elem_of_fmap in H1, H2.
      destruct H1 as ([k1 v1] & -> & H1). destruct H2 as ([k2 v2] & -> & H2).
      cbn [fst]. destruct c0 as [c |]; [| inversion H1].
      apply entries_key in H1. destruct H1 as [s1 ->].
      apply entries_from_key in H2. destruct H2 as (j & s2 & Hj & ->).
      rewrite <- app_assoc. apply lex_lt_slot.
      rewrite !byte_of_uint16_slot by lia. lia.
    + destruct c0 as [c |]; [| constructor]. apply (Hch O c). reflexivity.
    + apply IH; [| lia]. intros j c Hj. apply (Hch (S j) c Hj).
Qed.

(** The listing is in strictly ascending byte order. *)
Lemma entries_sorted nd :
  wf_node nd = true ->
  forall pre, StronglySorted (fun a a' => lex_lt a a' = true)
                (fst <$> entries pre nd).
Proof.
  induction nd as [cs w f IH] using pnode_ind. intros Hwf pre.
  rewrite entries_eq, fmap_app. cbn [children valid value].
  pose proof (wf_node_length _ Hwf) as Hl. cbn [children] in Hl.
  apply StronglySorted_app_2.
  - intros x1 x2 H1 H2. destruct f; [| inversion H1].
    apply list_elem_of_singleton in H1. subst x1. cbn [fst].
    apply list_elem_of_fmap in H2. destruct H2 as ([k2 v2] & -> & H2).
    apply entries_from_key in H2. destruct H2 as (j & s2 & _ & ->).
    apply lex_lt_extend.
  - destruct f; repeat constructor.
  - apply entries_from_sorted; [| lia]. intros j c Hj pre'.
    apply (IH j c Hj). eapply wf_node_child; [exact Hwf |].
    apply child_Some. exact Hj.
Qed.

End Order.

Section Enumeration.

Context {V : Type}.
Implicit Types (key : list byte) (v : option V) (t : PrefixTrie V).

Lemma remaining_fresh t :
  bookmarks t = [] -> remaining t = entries_from [] O (children (root t)).
Proof.
  intros Hb. unfold remaining, pending, pending_bm. rewrite Hb.
  cbn [bm_n bm_prefix bm_k map concat]. change (Z.to_nat 0) with O.
  now rewrite drop_0, app_nil_r.
Qed.

(** X1.  What the loop over Scan does on a trie whose cursor was never used:
    it yields the stored pairs with a non-empty key, each once, in strictly
    ascending byte order.  The pair of the empty key is never yielded. *)
Theorem scan_all_enumerates t :
  wf_trie t = true -> bookmarks t = [] ->
  exists ps t',
    scan_all (S (length (remaining t))) t = Some (ps, t') /\
    StronglySorted (fun a a' => lex_lt a a' = true) (fst <$> ps) /\
    forall key v, (key, v) ∈ ps <-> key <> [] /\ Find t key = (v, true).
Proof.
  intros Hwf Hb.
  destruct (scan_all_spec (S (length (remaining t))) t Hwf (Nat.lt_succ_diag_r _))
    as (t' & Hall & _).
  exists (remaining t), t'. split; [assumption |].
  rewrite (remaining_fresh t Hb). apply wf_trie_spec in Hwf.
  destruct Hwf as [Hroot _]. split.
  - apply entries_from_sorted.
    + intros j c Hj pre'. apply entries_sorted.
      eapply wf_node_child; [exact Hroot |]. apply child_Some. exact Hj.
    + rewrite (wf_node_length _ Hroot). lia.
  - intros key v. pose proof (elem_of_entries (root t) Hroot [] key v) as He.
    rewrite entries_eq, elem_of_app in He. unfold Find. split.
    + intros H. split.
      * apply entries_from_key in H. destruct H as (j & s & _ & ->).
        discriminate.
      * destruct (proj1 He (or_intror H)) as (s & -> & Hf). exact Hf.
    + intros [Hne Hf]. destruct (proj2 He) as [H | H]; [eauto | | exact H].
      exfalso. destruct (valid (root t)); [| inversion H].
      apply list_elem_of_singleton in H. congruence.
Qed.

(** After the loop has ended, a second loop yields nothing. *)
Theorem scan_all_again fuel t ps t' :
  wf_trie t = true -> scan_all fuel t = Some (ps, t') ->
  forall fuel', scan_all (S fuel') t' = Some ([], t').
Proof.
  revert t ps. induction fuel as [| fuel IH]; intros t ps Hwf Hall fuel';
    [discriminate |].
  cbn [scan_all] in Hall.
  destruct (Scan_spec t Hwf) as (found & t1 & HS & _ & Hwf1 & _).
  rewrite HS in Hall. destruct found.
  - destruct (Pair t1); [| discriminate].
    destruct (scan_all fuel t1) as [[ps1 t2] |] eqn:E; [| discriminate].
    injection Hall as _ <-. eapply IH; eauto.
  - injection Hall as _ <-. cbn [scan_all].
    now rewrite (Scan_false_again t t1 Hwf HS).
Qed.

(** Before the first Scan call the stack is empty and the accessors index
    out of range. *)
Lemma accessors_before_scan :
  Pair (@NewPrefixTrie V) = None /\ Text (@NewPrefixTrie V) = None.
Proof. split; reflexivity. Qed.

End Enumeration.

(** * The claims of the specification *)

Section Claims.

Context {V : Type}.
Implicit Types (key path : list byte) (b : byte) (v w : option V)
  (t : PrefixTrie V) (os : list (op V)).

(** C3.  Immediately after Insert(k, v), Find(k) returns (v, true), and it
    still does after any further sequence of calls none of which is a
    Delete(k) or an Insert(k, _). *)
Theorem C3_find_after_insert t key v os :
  wf_trie t = true ->
  Forall (fun o => ~ touches key o) os ->
  Find (Insert t key v) key = (v, true) /\
  exists t', run (Insert t key v) os = Some t' /\ Find t' key = (v, true).
Proof.
  intros Hwf Hos.
  assert (Find (Insert t key v) key = (v, true)) as Hf.
  { unfold Find, Insert. cbn [root]. apply find_insert_eq.
    now apply wf_trie_spec in Hwf. }
  split; [assumption |].
  destruct (run_spec (Insert t key v) os (wf_Insert t key v Hwf))
    as (t' & Hr & _ & Hkeep).
  exists t'. split; [assumption |]. now apply Hkeep.
Qed.

(** C4.  Delete(k) returns true exactly when k was stored at the call,
    that is, when the node of k existed with its flag set; after the call
    Find(k) reports not found; and Delete("") on a new trie returns
    false. *)
Theorem C4_delete_returns_stored t key :
  exists t' found,
    Delete t key = Some (t', found) /\
    found = snd (Find t key) /\
    (found = true <->
     exists nd, walk (root t) key = Some nd /\ valid nd = true) /\
    snd (Find t' key) = false /\
    Delete (@NewPrefixTrie V) [] = Some (NewPrefixTrie, false).
Proof.
  eexists _, _. split; [apply Delete_spec |].
  rewrite delete_from_found. split; [reflexivity |]. split; [| split].
  - apply stored_walk.
  - unfold Find. cbn [root]. apply find_delete_eq.
  - reflexivity.
Qed.

(** C5.  Delete of a key that is not stored returns false and leaves the
    trie, nodes and cursor, exactly as it was; the same call can therefore
    be repeated with the same result. *)
Theorem C5_delete_absent_is_noop t key :
  snd (Find t key) = false ->
  Delete t key = Some (t, false) /\
  run t [OpDelete key; OpDelete key] = Some t.
Proof.
  intros Hf.
  assert (Delete t key = Some (t, false)) as HD.
  { rewrite Delete_spec. rewrite delete_from_absent by assumption.
    now destruct t. }
  split; [assumption |]. cbn [run step]. now rewrite HD, HD.
Qed.

(** C6.  In every trie reached from a new one by Insert and Delete calls
    (Scan calls allowed in between), every node other than the root is
    terminal or has a child; and after inserting pairs and deleting a list
    of keys that covers every inserted key, the root has 256 nil
    children. *)
Theorem C6_no_dead_node os (kvs : list (list byte * option V))
    (ds : list (list byte)) :
  (exists t,
      run NewPrefixTrie os = Some t /\
      forall path nd,
        path <> [] -> walk (root t) path = Some nd ->
        valid nd = true \/ has_children nd = true) /\
  ((forall key, In key (map fst kvs) -> In key ds) ->
   exists t,
     run NewPrefixTrie
         (map (fun kv => OpInsert (fst kv) (snd kv)) kvs ++ map OpDelete ds)
     = Some t /\
     children (root t) = replicate 256 None).
Proof.
  split; [| intros Hcover].
  - destruct (run_spec NewPrefixTrie os wf_NewPrefixTrie) as (t & Hr & _ & _).
    exists t. split; [assumption |]. intros path nd Hne Hw.
    apply orb_true_iff. change (live nd = true).
    eapply compact_walk; [| exact Hw | exact Hne].
    eapply compact_run; [apply wf_NewPrefixTrie | apply compact_new | exact Hr].
  - set (ops := map (fun kv => OpInsert (fst kv) (snd kv)) kvs ++ map OpDelete ds).
    destruct (run_spec NewPrefixTrie ops wf_NewPrefixTrie) as (t & Hr & Hwf & _).
    exists t. split; [assumption |].
    pose proof (compact_run _ _ _ wf_NewPrefixTrie compact_new Hr) as Hc.
    subst ops. rewrite run_app in Hr.
    destruct (run NewPrefixTrie (map (fun kv => OpInsert (fst kv) (snd kv)) kvs))
      as [t1 |] eqn:Hr1; [| discriminate].
    apply wf_trie_spec in Hwf. destruct Hwf as [Hroot _].
    apply compact_empty; try assumption. intros key _.
    destruct (snd (find_from (root t) key)) eqn:Hf; [| reflexivity].
    exfalso. destruct (stored_after_deletes ds t1 t Hr key Hf) as [H1 Hnin].
    destruct (stored_after_inserts kvs _ t1 wf_NewPrefixTrie Hr1 key H1)
      as [H0 | Hin].
    + unfold Find, NewPrefixTrie in H0. cbn [root] in H0.
      rewrite find_new in H0. discriminate.
    + now apply Hnin, Hcover.
Qed.

(** C7.  Insert(k, v) removes nothing: every byte path that led to a node
    still does, with the same flag and payload unless the path is k; every
    other stored key keeps its value; and Find(k) then returns (v, true). *)
Theorem C7_insert_preserves t key v :
  wf_trie t = true ->
  (forall path nd,
      walk (root t) path = Some nd ->
      exists nd',
        walk (root (Insert t key v)) path = Some nd' /\
        (path <> key -> value nd' = value nd /\ valid nd' = valid nd)) /\
  (forall key' v',
      key' <> key -> Find t key' = (v', true) ->
      Find (Insert t key v) key' = (v', true)) /\
  Find (Insert t key v) key = (v, true).
Proof.
  intros Hwf. apply wf_trie_spec in Hwf. destruct Hwf as [Hroot _].
  unfold Find, Insert. cbn [root]. split; [| split].
  - intros path nd Hw. now apply walk_insert.
  - intros key' v' Hne Hf. now rewrite find_insert_ne.
  - now apply find_insert_eq.
Qed.

(** C8.  Delete(k) leaves every other stored key k' with its value, and
    every node on the path of k' linked. *)
Theorem C8_delete_preserves_others t key key' v' :
  key' <> key -> Find t key' = (v', true) ->
  exists t' found,
    Delete t key = Some (t', found) /\
    Find t' key' = (v', true) /\
    forall path s, key' = path ++ s ->
                   exists nd, walk (root t') path = Some nd.
Proof.
  intros Hne Hf. pose proof (Delete_spec t key) as HD.
  eexists _, _. split; [exact HD |].
  destruct (Find_Delete_ne t key key' _ _ Hne HD) as [_ H].
  rewrite Hf in H. specialize (H eq_refl).
  split; [assumption |]. intros path s ->.
  unfold Find in H. rewrite find_walk in H.
  destruct (walk _ (path ++ s)) as [x |] eqn:Hw; [| discriminate].
  eapply walk_app, Hw.
Qed.



(** C10.  When a child is missing on the way, Find returns (nil, false);
    when the walk ends at a node, Find returns the payload field and the
    flag of that node; and since Delete clears the flag only, after
    Insert(k, v), Insert(k ++ [b], w), Delete(k) the call Find(k) returns
    (v, false): the value of the deleted key. *)
Theorem C10_find_returns_stale_payload t key b v w :
  wf_trie t = true ->
  (walk (root t) key = None -> Find t key = (None, false)) /\
  (forall nd, walk (root t) key = Some nd -> Find t key = (value nd, valid nd)) /\
  exists t',
    Delete (Insert (Insert t key v) (key ++ [b]) w) key = Some (t', true) /\
    Find t' key = (v, false).
Proof.
  intros Hwf. unfold Find at 1 2. rewrite find_walk.
  split; [now intros -> |]. split; [now intros nd -> |].
  set (t2 := Insert (Insert t key v) (key ++ [b]) w).
  assert (key <> key ++ [b]) as Hne.
  { intros H. apply (f_equal length) in H. rewrite length_app in H.
    cbn [length] in H. lia. }
  pose proof (wf_Insert t key v Hwf) as Hwf1.
  assert (Find t2 key = (v, true)) as Hk.
  { unfold t2, Find, Insert. cbn [root]. rewrite find_insert_ne.
    - apply find_insert_eq. now apply wf_trie_spec in Hwf.
    - apply wf_insert_from. now apply wf_trie_spec in Hwf.
    - exact Hne. }
  assert (Find t2 (key ++ [b]) = (w, true)) as Hkb.
  { unfold t2, Find, Insert. cbn [root]. apply find_insert_eq.
    apply wf_insert_from. now apply wf_trie_spec in Hwf. }
  pose proof (Delete_spec t2 key) as HD. rewrite delete_from_found in HD.
  fold (Find t2 key) in HD. rewrite Hk in HD. cbn [snd] in HD.
  eexists. split; [exact HD |].
  assert (key ++ [b] <> key) as Hne' by congruence.
  destruct (Find_Delete_ne t2 key (key ++ [b]) _ _ Hne' HD) as [_ H].
  rewrite Hkb in H. specialize (H eq_refl).
  unfold Find in H. cbn [root] in H. rewrite find_walk in H.
  destruct (walk _ (key ++ [b])) as [x |] eqn:Hw; [| discriminate].
  destruct (walk_app _ _ _ _ Hw) as [y Hy].
  destruct (walk_delete _ _ _ _ Hy) as (x0 & Hx0 & Hval).
  pose proof (find_delete_eq (root t2) key) as Hgone.
  unfold Find in Hk. rewrite find_walk, Hx0 in Hk. injection Hk as Hv _.
  rewrite find_walk, Hy in Hgone. cbn [snd] in Hgone.
  unfold Find. cbn [root]. rewrite find_walk, Hy. congruence.
Qed.

End Claims.

(** C1 (not met by the code).  Scenario 1: after Insert("", 0),
    Insert("a", 1), Insert("ab", 2) the empty key is stored, but the Scan
    loop yields only "a" and "ab": Scan starts below the root and never
    looks at the flag of the root. *)
Theorem C1_scan_omits_empty_key :
  Find scenario1 [] = (Some 0, true) /\
  fst <$> scan_all 4 scenario1 = Some [(k_a, Some 1); (k_ab, Some 2)].
Proof. split; vm_compute; reflexivity. Qed.

(** C2 (not met by the code).  On the trie holding "a", the first loop
    over Scan yields "a" and ends with Scan returning false; the stack
    then still holds the root bookmark, so the next call returns false
    again and a second loop yields nothing. *)
Theorem C2_scan_does_not_restart :
  exists t',
    scan_all 3 (insert_all [(k_a, Some 1)] NewPrefixTrie)
    = Some ([(k_a, Some 1)], t') /\
    bookmarks t' <> [] /\
    Scan t' = Some (false, t') /\
    scan_all 3 t' = Some ([], t').
Proof.
  set (t := insert_all [(k_a, Some 1)] NewPrefixTrie).
  assert (wf_trie t = true) as Hwf by reflexivity.
  assert (remaining t = [(k_a, Some 1)]) as Hrem by (vm_compute; reflexivity).
  assert (length (remaining t) < 3)%nat as Hlen
      by (rewrite Hrem; cbn [length]; lia).
  destruct (scan_all_spec 3 t Hwf Hlen) as (t' & Hall & _ & Hwf' & HS).
  rewrite Hrem in Hall. exists t'. split; [assumption |].
  split; [| split; [assumption |]].
  - destruct (Scan_spec t' Hwf') as (found & t2 & HS2 & _ & _ & Hres).
    rewrite HS in HS2. injection HS2 as <- <-.
    destruct Hres as (_ & bm1 & -> & _). discriminate.
  - exact (scan_all_again 3 t _ t' Hwf Hall 2%nat).
Qed.

(** ** The claims at concrete tries *)

Lemma C3_witness :
  wf_trie scenario2 = true /\
  Forall (fun o => ~ touches k_a o)
         [OpInsert k_b (Some 5); OpDelete romane; OpScan; OpDelete k_b] /\
  Find (Insert scenario2 k_a (Some 9)) k_a = (Some 9, true) /\
  exists t',
    run (Insert scenario2 k_a (Some 9))
        [OpInsert k_b (Some 5); OpDelete romane; OpScan; OpDelete k_b]
    = Some t' /\
    Find t' k_a = (Some 9, true).
Proof.
  assert (wf_trie scenario2 = true) as Hwf by reflexivity.
  assert (Forall (fun o => ~ touches k_a o)
            [OpInsert k_b (Some 5); OpDelete romane; OpScan; OpDelete k_b])
    as Hos by (repeat constructor; simpl; (discriminate || tauto)).
  split; [exact Hwf |]. split; [exact Hos |].
  exact (C3_find_after_insert scenario2 k_a (Some 9) _ Hwf Hos).
Defined.

Lemma C5_witness :
  snd (Find scenario2 k_rom) = false /\
  Delete scenario2 k_rom = Some (scenario2, false) /\
  run scenario2 [OpDelete k_rom; OpDelete k_rom] = Some scenario2.
Proof.
  assert (snd (Find scenario2 k_rom) = false) as Hf by reflexivity.
  split; [exact Hf |]. exact (C5_delete_absent_is_noop scenario2 k_rom Hf).
Defined.

Lemma C6_witness :
  (forall key, In key (map fst [(k_a, Some 1%Z); (k_ab, Some 2%Z)]) ->
               In key [k_ab; k_b; k_a]) /\
  (exists t,
      run NewPrefixTrie [OpInsert k_ab (Some 1%Z); OpScan; OpDelete k_a]
      = Some t /\
      forall path nd,
        path <> [] -> walk (root t) path = Some nd ->
        valid nd = true \/ has_children nd = true) /\
  (exists t,
      run NewPrefixTrie
          (map (fun kv => OpInsert (fst kv) (snd kv))
               [(k_a, Some 1%Z); (k_ab, Some 2%Z)]
           ++ map OpDelete [k_ab; k_b; k_a])
      = Some t /\
      children (root t) = replicate 256 None).
Proof.
  assert (forall key, In key (map fst [(k_a, Some 1%Z); (k_ab, Some 2%Z)]) ->
                      In key [k_ab; k_b; k_a]) as Hcover
      by (simpl; intros key [<- | [<- | []]]; tauto).
  split; [exact Hcover |].
  destruct (C6_no_dead_node
              [OpInsert k_ab (Some 1%Z); OpScan; OpDelete k_a]
              [(k_a, Some 1%Z); (k_ab, Some 2%Z)] [k_ab; k_b; k_a])
    as [Hreach Hempty].
  split; [exact Hreach | exact (Hempty Hcover)].
Defined.

Lemma C7_witness :
  wf_trie scenario2 = true /\
  (forall path nd,
      walk (root scenario2) path = Some nd ->
      exists nd',
        walk (root (Insert scenario2 k_rom (Some 8))) path = Some nd' /\
        (path <> k_rom -> value nd' = value nd /\ valid nd' = valid nd)) /\
  (forall key' v',
      key' <> k_rom -> Find scenario2 key' = (v', true) ->
      Find (Insert scenario2 k_rom (Some 8)) key' = (v', true)) /\
  Find (Insert scenario2 k_rom (Some 8)) k_rom = (Some 8, true).
Proof.
  assert (wf_trie scenario2 = true) as Hwf by reflexivity.
  split; [exact Hwf |].
  exact (C7_insert_preserves scenario2 k_rom (Some 8) Hwf).
Defined.

Lemma C8_witness :
  romanus <> romane /\
  Find scenario2 romanus = (Some 2, true) /\
  exists t' found,
    Delete scenario2 romane = Some (t', found) /\
    Find t' romanus = (Some 2, true) /\
    forall path s, romanus = path ++ s ->
                   exists nd, walk (root t') path = Some nd.
Proof.
  assert (romanus <> romane) as Hne by discriminate.
  assert (Find scenario2 romanus = (Some 2, true)) as Hf by reflexivity.
  split; [exact Hne |]. split; [exact Hf |].
  exact (C8_delete_preserves_others scenario2 romane romanus (Some 2) Hne Hf).
Defined.



Lemma C10_witness :
  wf_trie (@NewPrefixTrie Z) = true /\
  (walk (root (@NewPrefixTrie Z)) k_a = None ->
   Find (@NewPrefixTrie Z) k_a = (None, false)) /\
  (forall nd, walk (root (@NewPrefixTrie Z)) k_a = Some nd ->
              Find NewPrefixTrie k_a = (value nd, valid nd)) /\
  exists t',
    Delete (Insert (Insert NewPrefixTrie k_a (Some 1)) (k_a ++ ["b"%byte])
                   (Some 2)) k_a
    = Some (t', true) /\
    Find t' k_a = (Some 1, false).
Proof.
  assert (wf_trie (@NewPrefixTrie Z) = true) as Hwf by reflexivity.
  split; [exact Hwf |].
  exact (C10_find_returns_stale_payload NewPrefixTrie k_a "b"%byte
           (Some 1) (Some 2) Hwf).
Defined.

(** Scenario 2: Delete("romane") returns true, then false twice; Scan over
    the remainder yields the six other keys in ascending order; deleting
    them all leaves a root without children. *)
Example scenario2_deletes :
  match Delete scenario2 romane with
  | Some (t1, found) =>
      found = true /\
      Delete t1 romane = Some (t1, false) /\
      fst <$> scan_all 7 t1
      = Some [(romanus, Some 2); (romulus, Some 3); (rubens, Some 4);
              (ruber, Some 5); (rubicon, Some 6); (rubicundus, Some 7)] /\
      root <$> run t1 (map OpDelete [romanus; romulus; rubens; ruber;
                                     rubicon; rubicundus])
      = Some new_pnode
  | None => False
  end.
Proof. vm_compute. repeat split; reflexivity. Qed.

(** * Further properties of the code *)

Section InsertAlgebra.

Context {V : Type}.
Implicit Types (nd c : pnode V) (key path : list byte) (b : byte)
  (v w : option V) (t : PrefixTrie V).

Lemma set_child_set_child nd i x y :
  set_child (set_child nd i x) i y = set_child nd i y.
Proof.
  unfold set_child. cbn [children value valid].
  now rewrite list_insert_insert_eq.
Qed.

Lemma set_child_comm nd i j x y :
  i <> j ->
  set_child (set_child nd i x) j y = set_child (set_child nd j y) i x.
Proof.
  intros Hij. unfold set_child. cbn [children value valid].
  now rewrite list_insert_insert_ne.
Qed.

Lemma set_child_None_id nd i :
  (i < length (children nd))%nat -> child nd i = None ->
  set_child nd i None = nd.
Proof.
  intros Hi Hc. destruct nd as [cs x f]. unfold set_child, child in *.
  cbn [children value valid] in *.
  destruct (cs !! i) as [o |] eqn:E.
  - subst o. now rewrite list_insert_id.
  - apply lookup_ge_None in E. lia.
Qed.

Lemma insert_fresh_from key v :
  insert_fresh (@new_pnode V) key v = insert_from new_pnode key v.
Proof.
  destruct key as [| b key]; [reflexivity |]. cbn [insert_from].
  now rewrite child_new.
Qed.

(** Both loops of Insert at once: the slot of the first byte receives the
    result of inserting the rest below the child, or below a new node. *)
Lemma insert_from_cons nd b key v :
  insert_from nd (b :: key) v =
  set_child nd (Byte.to_nat b)
            (Some (insert_from (default new_pnode (child nd (Byte.to_nat b)))
                               key v)).
Proof.
  cbn [insert_from]. destruct (child nd (Byte.to_nat b)) as [c |].
  - reflexivity.
  - rewrite insert_fresh_cons. cbn [from_option id]. now rewrite insert_fresh_from.
Qed.

Lemma wf_default_child nd i :
  wf_node nd = true -> wf_node (default new_pnode (child nd i)) = true.
Proof.
  intros Hwf. destruct (child nd i) as [c |] eqn:E; cbn [from_option id].
  - eapply wf_node_child; eauto.
  - apply wf_new.
Qed.

Lemma insert_insert_eq nd key v w :
  wf_node nd = true ->
  insert_from (insert_from nd key v) key w = insert_from nd key w.
Proof.
  revert nd. induction key as [| b key IH]; intros nd Hwf.
  - reflexivity.
  - rewrite !insert_from_cons.
    rewrite child_set_child_eq
      by (rewrite (wf_node_length _ Hwf); apply byte_slot).
    cbn [from_option id]. rewrite set_child_set_child.
    now rewrite IH by now apply wf_default_child.
Qed.

Lemma insert_insert_ne nd key v key' w :
  wf_node nd = true -> key <> key' ->
  insert_from (insert_from nd key v) key' w =
  insert_from (insert_from nd key' w) key v.
Proof.
  revert nd key'. induction key as [| b key IH]; intros nd [| b' key'] Hwf Hne;
    try congruence.
  - rewrite !insert_from_cons. reflexivity.
  - rewrite !insert_from_cons. reflexivity.
  - rewrite !insert_from_cons.
    destruct (decide (Byte.to_nat b = Byte.to_nat b')) as [Hb | Hb].
    + rewrite <- Hb.
      rewrite !child_set_child_eq
        by (rewrite (wf_node_length _ Hwf); apply byte_slot).
      cbn [from_option id]. rewrite !set_child_set_child.
      rewrite IH; [reflexivity | now apply wf_default_child |].
      apply byte_slot_inj in Hb. congruence.
    + rewrite !child_set_child_ne by congruence.
      now apply set_child_comm.
Qed.

(** X4.  A second Insert of the same key only replaces the payload: the trie
    is the one a single Insert of the last value gives. *)
Theorem Insert_overwrites t key v w :
  wf_trie t = true ->
  Insert (Insert t key v) key w = Insert t key w.
Proof.
  intros Hwf. apply wf_trie_spec in Hwf. destruct Hwf as [Hroot _].
  unfold Insert. cbn [root bookmarks]. now rewrite insert_insert_eq.
Qed.

(** X5.  Insert calls on different keys commute: the trie does not depend on
    the order in which distinct keys were inserted. *)
Theorem Insert_commutes t key v key' w :
  wf_trie t = true -> key <> key' ->
  Insert (Insert t key v) key' w = Insert (Insert t key' w) key v.
Proof.
  intros Hwf Hne. apply wf_trie_spec in Hwf. destruct Hwf as [Hroot _].
  unfold Insert. cbn [root bookmarks]. now rewrite insert_insert_ne.
Qed.

(** ** Insert then Delete *)

Lemma live_new : live (@new_pnode V) = false.
Proof. reflexivity. Qed.

Lemma delete_insert_new key v :
  exists c', delete_from (insert_from (@new_pnode V) key v) key = (c', true)
             /\ live c' = false.
Proof.
  induction key as [| b key IH].
  - eexists. split; reflexivity.
  - destruct IH as (c' & Hd & Hl). exists new_pnode.
    split; [| apply live_new].
    rewrite insert_from_cons, child_new. cbn [from_option id delete_from].
    rewrite child_set_child_eq
      by (rewrite (wf_node_length _ wf_new); apply byte_slot).
    rewrite Hd, Hl, set_child_set_child.
    rewrite set_child_None_id; [reflexivity | | apply child_new].
    rewrite (wf_node_length _ wf_new). apply byte_slot.
Qed.

Lemma delete_insert_absent nd key v :
  wf_node nd = true -> compact nd = true -> walk nd key = None ->
  delete_from (insert_from nd key v) key = (nd, true).
Proof.
  revert nd. induction key as [| b key IH]; intros nd Hwf Hc Hw;
    [discriminate |].
  pose proof (byte_slot b) as Hb. pose proof (wf_node_length _ Hwf) as Hl.
  rewrite insert_from_cons. cbn [delete_from].
  rewrite child_set_child_eq by lia. cbn [walk] in Hw.
  destruct (child nd (Byte.to_nat b)) as [c |] eqn:E; cbn [from_option id].
  - destruct (proj1 (compact_spec nd) Hc _ _ E) as [Hlc Hcc].
    rewrite (IH c (wf_node_child _ _ _ Hwf E) Hcc Hw), Hlc.
    rewrite set_child_set_child. now rewrite (set_child_id _ _ _ E).
  - destruct (delete_insert_new key v) as (c' & -> & ->).
    rewrite set_child_set_child. rewrite set_child_None_id; [reflexivity | lia | exact E].
Qed.

(** X6.  In a trie that keeps no useless node, inserting a key whose node
    does not exist and deleting it again gives back the very same trie:
    every node Insert created is unlinked. *)
Theorem Delete_after_Insert_restores t key v :
  wf_trie t = true -> compact (root t) = true ->
  walk (root t) key = None ->
  Delete (Insert t key v) key = Some (t, true).
Proof.
  intros Hwf Hc Hw. apply wf_trie_spec in Hwf. destruct Hwf as [Hroot _].
  rewrite Delete_spec. unfold Insert. cbn [root bookmarks].
  rewrite delete_insert_absent by assumption. now destruct t.
Qed.

(** Delete is idempotent: whatever the first call returned, a second
    Delete of the same key returns false and changes nothing. *)
Theorem Delete_twice t key :
  exists t' found,
    Delete t key = Some (t', found) /\ Delete t' key = Some (t', false).
Proof.
  eexists _, _. split; [apply Delete_spec |].
  rewrite Delete_spec. cbn [root bookmarks].
  rewrite delete_from_absent by apply find_delete_eq. reflexivity.
Qed.

End InsertAlgebra.

Section DeleteFrame.

Context {V : Type}.
Implicit Types (nd c : pnode V) (key path : list byte) (b : byte)
  (v w : option V) (t : PrefixTrie V).

Lemma walk_delete_flag nd key path x' :
  walk (fst (delete_from nd key)) path = Some x' -> path <> key ->
  exists x, walk nd path = Some x /\ valid x' = valid x.
Proof.
  revert nd path. induction key as [| b key IH]; intros nd path;
    cbn [delete_from].
  - cbn [fst]. destruct path as [| p path]; [congruence |]. cbn [walk].
    intros H _. now exists x'.
  - destruct (child nd (Byte.to_nat b)) as [c |] eqn:E; [| now exists x'].
    specialize (IH c). destruct (delete_from c key) as [c' found].
    cbn [fst] in IH. destruct found; [| now exists x']. cbn [fst].
    destruct path as [| p path]; cbn [walk].
    + intros [= <-] _. now exists nd.
    + destruct (decide (Byte.to_nat b = Byte.to_nat p)) as [Hb | Hb].
      * rewrite <- Hb, E. rewrite child_set_child_eq by (eapply child_lt, E).
        destruct (live c'); [| discriminate]. intros Hw Hne. apply IH; [assumption |].
        apply byte_slot_inj in Hb. congruence.
      * rewrite child_set_child_ne by assumption. intros H _. now exists x'.
Qed.

Lemma walk_dead c path x :
  live c = false -> walk c path = Some x -> path = [].
Proof.
  unfold live. intros Hl. apply orb_false_iff in Hl. destruct Hl as [_ Hc].
  destruct path as [| p path]; [reflexivity |]. cbn [walk].
  now rewrite (proj1 (has_children_false c) Hc) by apply byte_slot.
Qed.

Lemma walk_delete_gone nd key path x :
  walk nd path = Some x -> walk (fst (delete_from nd key)) path = None ->
  exists s, key = path ++ s.
Proof.
  revert nd path. induction key as [| b key IH]; intros nd path;
    cbn [delete_from].
  - cbn [fst]. destruct path as [| p path]; cbn [walk]; [discriminate |].
    unfold set_valid, child. cbn [children]. fold (child nd (Byte.to_nat p)).
    congruence.
  - destruct (child nd (Byte.to_nat b)) as [c |] eqn:E; [| cbn [fst]; congruence].
    specialize (IH c). destruct (delete_from c key) as [c' found] eqn:Ed.
    cbn [fst] in IH. destruct found; [| cbn [fst]; congruence]. cbn [fst].
    destruct path as [| p path]; cbn [walk]; [discriminate |].
    destruct (decide (Byte.to_nat b = Byte.to_nat p)) as [Hb | Hb].
    + rewrite <- Hb, E. rewrite child_set_child_eq by (eapply child_lt, E).
      apply byte_slot_inj in Hb. subst p. intros Hw Hgone.
      destruct (walk c' path) as [y |] eqn:Hy.
      * destruct (live c') eqn:El; [cbn in Hgone; congruence |].
        pose proof (walk_dead _ _ _ El Hy) as ->. now exists key.
      * destruct (IH path Hw Hy) as [s ->]. now exists s.
    + rewrite child_set_child_ne by assumption. congruence.
Qed.

(** X7.  What Delete leaves alone.  Every node present after the call was
    present before, with the same payload and, off the deleted key, the
    same flag: Delete creates no node and writes no payload.  A node that
    is gone lay on the path of the deleted key, the call returned true,
    and no other stored key passed through it. *)
Theorem Delete_frame t key :
  exists t' found,
    Delete t key = Some (t', found) /\
    bookmarks t' = bookmarks t /\
    (forall path x',
        walk (root t') path = Some x' ->
        exists x, walk (root t) path = Some x /\ value x' = value x /\
                  (path <> key -> valid x' = valid x)) /\
    (forall path x,
        walk (root t) path = Some x -> walk (root t') path = None ->
        found = true /\ (exists s, key = path ++ s) /\
        forall s', snd (Find t (path ++ s')) = true -> path ++ s' = key).
Proof.
  pose proof (Delete_spec t key) as HD. eexists _, _.
  split; [exact HD |]. split; [reflexivity |]. cbn [root]. split.
  - intros path x' Hw. destruct (walk_delete _ _ _ _ Hw) as (x & Hx & Hval).
    exists x. repeat split; try assumption. intros Hne.
    destruct (walk_delete_flag _ _ _ _ Hw Hne) as (y & Hy & Hflag).
    congruence.
  - intros path x Hw Hgone. split; [| split].
    + destruct (snd (delete_from (root t) key)) eqn:Hf; [reflexivity |].
      rewrite delete_from_found in Hf.
      rewrite (delete_from_absent _ _ Hf) in Hgone. cbn [fst] in Hgone.
      congruence.
    + eapply walk_delete_gone; eauto.
    + intros s' Hs. destruct (decide (path ++ s' = key)) as [| Hne];
        [assumption | exfalso].
      destruct (Find_Delete_ne t key (path ++ s') _ _ Hne HD) as [Hsnd _].
      rewrite Hs in Hsnd. unfold Find in Hsnd. cbn [root] in Hsnd.
      apply stored_walk in Hsnd. destruct Hsnd as (y & Hy & _).
      destruct (walk_app _ _ _ _ Hy) as [z Hz]. congruence.
Qed.

End DeleteFrame.

Section NodeCount.

Context {V : Type}.
Implicit Types (nd c : pnode V) (key path : list byte) (b : byte)
  (v w : option V) (t : PrefixTrie V) (cs : list (option (pnode V))).

Lemma node_count_eq nd : node_count nd = S (count_list (children nd)).
Proof. destruct nd as [cs x f]. reflexivity. Qed.

Lemma count_list_insert cs (i : nat) (x old : option (pnode V)) :
  cs !! i = Some old ->
  (count_list (<[i := x]> cs) + from_option node_count O old
   = count_list cs + from_option node_count O x)%nat.
Proof.
  revert i. induction cs as [| c0 cs IH]; intros [| i] Hi; try discriminate.
  - injection Hi as ->. cbn [list_insert insert count_list].
    destruct x as [cx |], old as [co |]; cbn [count_list from_option]; lia.
  - cbn in Hi. specialize (IH i Hi).
    change (<[S i := x]> (c0 :: cs)) with (c0 :: <[i := x]> cs).
    destruct c0 as [c |]; cbn [count_list]; lia.
Qed.

Lemma node_count_set_child nd (i : nat) (x old : option (pnode V)) :
  children nd !! i = Some old ->
  (node_count (set_child nd i x) + from_option node_count O old
   = node_count nd + from_option node_count O x)%nat.
Proof.
  intros Hi. rewrite !node_count_eq. unfold set_child. cbn [children].
  pose proof (count_list_insert _ _ x _ Hi). lia.
Qed.

Lemma node_count_new : node_count (@new_pnode V) = 1%nat.
Proof. reflexivity. Qed.

Lemma matched_new key : matched (@new_pnode V) key = O.
Proof. destruct key as [| b key]; [reflexivity |]. cbn [matched]. now rewrite child_new. Qed.

Lemma matched_le nd key : (matched nd key <= length key)%nat.
Proof.
  revert nd. induction key as [| b key IH]; intros nd; cbn [matched length].
  - lia.
  - destruct (child nd (Byte.to_nat b)) as [c |]; [specialize (IH c) |]; lia.
Qed.

Lemma children_slot nd (i : nat) :
  (i < length (children nd))%nat -> children nd !! i = Some (child nd i).
Proof.
  intros Hi. unfold child. destruct (children nd !! i) as [o |] eqn:E.
  - reflexivity.
  - apply lookup_ge_None in E. lia.
Qed.

Lemma node_count_insert_from nd key v :
  wf_node nd = true ->
  (node_count (insert_from nd key v) + matched nd key
   = node_count nd + length key)%nat.
Proof.
  revert nd. induction key as [| b key IH]; intros nd Hwf.
  - cbn [insert_from matched length]. rewrite !node_count_eq. cbn [set_payload children]. lia.
  - rewrite insert_from_cons.
    assert (Byte.to_nat b < length (children nd))%nat as Hb
        by (rewrite (wf_node_length _ Hwf); apply byte_slot).
    pose proof (node_count_set_child nd (Byte.to_nat b)
                  (Some (insert_from (default new_pnode (child nd (Byte.to_nat b))) key v))
                  _ (children_slot nd _ Hb)) as Hset.
    pose proof (IH _ (wf_default_child nd (Byte.to_nat b) Hwf)) as IHc.
    cbn [matched length]. cbn [from_option] in Hset.
    destruct (child nd (Byte.to_nat b)) as [c |] eqn:E;
      cbn [from_option id] in *.
    + lia.
    + rewrite matched_new, node_count_new in IHc. lia.
Qed.

Lemma node_count_delete_from nd key :
  (node_count (fst (delete_from nd key)) <= node_count nd)%nat.
Proof.
  revert nd. induction key as [| b key IH]; intros nd; cbn [delete_from].
  - cbn [fst]. rewrite !node_count_eq. cbn [set_valid children]. lia.
  - destruct (child nd (Byte.to_nat b)) as [c |] eqn:E; [| cbn [fst]; lia].
    specialize (IH c). destruct (delete_from c key) as [c' found].
    cbn [fst] in IH. destruct found; [| cbn [fst]; lia]. cbn [fst].
    apply child_Some in E.
    pose proof (node_count_set_child nd (Byte.to_nat b)
                  (if live c' then Some c' else None) _ E) as Hset.
    cbn [from_option] in Hset.
    destruct (live c'); cbn [from_option] in Hset; lia.
Qed.

(** X8.  Insert allocates exactly one node for every byte of the key after
    the longest prefix whose nodes exist already (none when the whole
    path exists), and Delete never adds a node. *)
Theorem node_accounting t key v :
  wf_trie t = true ->
  (node_count (root (Insert t key v)) + matched (root t) key
   = node_count (root t) + length key)%nat /\
  (matched (root t) key <= length key)%nat /\
  exists t' found,
    Delete t key = Some (t', found) /\
    (node_count (root t') <= node_count (root t))%nat.
Proof.
  intros Hwf. apply wf_trie_spec in Hwf. destruct Hwf as [Hroot _].
  split; [now apply node_count_insert_from |].
  split; [apply matched_le |].
  eexists _, _. split; [apply Delete_spec |]. apply node_count_delete_from.
Qed.

End NodeCount.

Section ScanForever.

Context {V : Type}.
Implicit Types (t : PrefixTrie V) (os : list (op V)).

Lemma run_keeps_stuck os t bm1 :
  bookmarks t = [bm1] -> bm_k bm1 = 256 ->
  exists t', run t os = Some t' /\ bookmarks t' = [bm1].
Proof.
  revert t. induction os as [| o os IH]; intros t Hb Hk.
  - now exists t.
  - cbn [run]. destruct o as [key v | key |]; cbn [step].
    + apply IH; assumption.
    + rewrite Delete_spec. apply IH; assumption.
    + rewrite (Scan_stuck t bm1 Hb Hk). apply IH; assumption.
Qed.

(** X2.  Once Scan has returned false it returns false for ever, whatever
    Insert, Delete and Scan calls follow: the cursor stack keeps its one
    exhausted bookmark, so a trie can be enumerated a single time. *)
Theorem Scan_false_forever t t' os :
  wf_trie t = true -> Scan t = Some (false, t') ->
  exists t'',
    run t' os = Some t'' /\ bookmarks t'' = bookmarks t' /\
    Scan t'' = Some (false, t'').
Proof.
  intros Hwf HS. destruct (Scan_spec t Hwf) as (found & t2 & HS2 & _ & _ & Hres).
  rewrite HS in HS2. injection HS2 as <- <-.
  destruct Hres as (_ & bm1 & Hb & Hk).
  destruct (run_keeps_stuck os t' bm1 Hb Hk) as (t'' & Hr & Hb'').
  exists t''. split; [assumption |]. split; [congruence |].
  eapply Scan_stuck; eauto.
Qed.

End ScanForever.

Section DeleteSequences.

Context {V : Type}.
Implicit Types (t : PrefixTrie V) (ds : list (list byte)).

Lemma delete_all_lookup t ds :
  exists t' rs,
    delete_all t ds = Some (t', rs) /\
    length rs = length ds /\
    forall (i : nat) d,
      ds !! i = Some d ->
      rs !! i = Some (d, snd (Find t d) && bool_decide (d ∉ take i ds)).
Proof.
  revert t. induction ds as [| d0 ds IH]; intros t.
  - exists t, []. repeat split. intros i d Hi. destruct i; discriminate.
  - cbn [delete_all]. pose proof (Delete_spec t d0) as HD. rewrite HD.
    match goal with |- context [delete_all ?t1 ds] =>
      destruct (IH t1) as (t' & rs & Hall & Hlen & Hrs) end.
    rewrite Hall. eexists _, _. split; [reflexivity |].
    split; [cbn [length]; lia |]. intros [| i] d Hi.
    + injection Hi as ->. cbn [take lookup list_lookup].
      rewrite delete_from_found. fold (Find t d).
      rewrite bool_decide_true by apply not_elem_of_nil.
      now rewrite andb_true_r.
    + cbn in Hi. change (((d0, snd (delete_from (root t) d0)) :: rs) !! S i)
        with (rs !! i).
      rewrite (Hrs i d Hi). f_equal. f_equal. cbn [take].
      destruct (decide (d = d0)) as [-> | Hne].
      * unfold Find at 1. cbn [root]. rewrite find_delete_eq.
        rewrite (bool_decide_false (d0 ∉ d0 :: take i ds));
          [now rewrite andb_false_r |].
        intros H. apply H. constructor.
      * destruct (Find_Delete_ne t d0 d _ _ Hne HD) as [-> _]. f_equal.
        apply bool_decide_ext. rewrite not_elem_of_cons. tauto.
Qed.

(** X9.  In a sequence of Delete calls, a call returns true exactly when
    its key was stored before the sequence and no earlier call of the
    sequence had the same key. *)
Theorem delete_all_results t ds :
  exists t' rs,
    delete_all t ds = Some (t', rs) /\
    length rs = length ds /\
    forall (i : nat) d,
      ds !! i = Some d ->
      rs !! i = Some (d, snd (Find t d) && bool_decide (d ∉ take i ds)).
Proof. apply delete_all_lookup. Qed.

End DeleteSequences.

Section MapRefinement.

Context {V : Type}.
Implicit Types (t : PrefixTrie V) (os : list (op V))
  (m : gmap (list byte) (option V)).

Lemma step_map t m o :
  wf_trie t = true ->
  (forall key, match m !! key with
               | Some v => Find t key = (v, true)
               | None => snd (Find t key) = false
               end) ->
  exists t',
    step t o = Some t' /\ wf_trie t' = true /\
    forall key, match map_step m o !! key with
                | Some v => Find t' key = (v, true)
                | None => snd (Find t' key) = false
                end.
Proof.
  intros Hwf Hrep. destruct (step_spec t o Hwf) as (t' & Hs & Hwf' & _).
  exists t'. split; [assumption |]. split; [assumption |]. intros key.
  specialize (Hrep key).
  destruct o as [k v | k |]; cbn [step map_step] in *.
  - injection Hs as <-. apply wf_trie_spec in Hwf. destruct Hwf as [Hroot _].
    unfold Find, Insert. cbn [root].
    destruct (decide (k = key)) as [-> | Hne].
    + rewrite lookup_insert_eq. now apply find_insert_eq.
    + rewrite lookup_insert_ne by assumption.
      rewrite find_insert_ne by (assumption || congruence). exact Hrep.
  - pose proof (Delete_spec t k) as HD. rewrite HD in Hs. injection Hs as <-.
    destruct (decide (k = key)) as [-> | Hne].
    + rewrite lookup_delete_eq. unfold Find. cbn [root]. apply find_delete_eq.
    + rewrite lookup_delete_ne by assumption.
      assert (key <> k) as Hne' by congruence.
      destruct (Find_Delete_ne t k key _ _ Hne' HD) as [Hsnd Hsame].
      destruct (m !! key) as [v |].
      * rewrite Hsame; [assumption | now rewrite Hrep].
      * congruence.
  - destruct (Scan_spec t Hwf) as (found & t1 & HS & Hroot & _).
    rewrite HS in Hs. injection Hs as <-. unfold Find in *.
    now rewrite Hroot.
Qed.

Lemma run_map os t m :
  wf_trie t = true ->
  (forall key, match m !! key with
               | Some v => Find t key = (v, true)
               | None => snd (Find t key) = false
               end) ->
  exists t',
    run t os = Some t' /\
    forall key, match fold_left map_step os m !! key with
                | Some v => Find t' key = (v, true)
                | None => snd (Find t' key) = false
                end.
Proof.
  revert t m. induction os as [| o os IH]; intros t m Hwf Hrep.
  - now exists t.
  - destruct (step_map t m o Hwf Hrep) as (t1 & Hs & Hwf1 & Hrep1).
    destruct (IH t1 _ Hwf1 Hrep1) as (t' & Hr & Hrep').
    exists t'. cbn [run fold_left]. now rewrite Hs.
Qed.

(** X3.  The trie is a finite map.  After any sequence of Insert, Delete and
    Scan calls on a new trie, Find(k) returns the value of the last
    Insert(k, _) with found = true if no Delete(k) came after it, and
    found = false otherwise; and a Delete(k) called next returns whether
    k is in that map. *)
Theorem trie_refines_map os :
  exists t,
    run NewPrefixTrie os = Some t /\
    forall key,
      match map_of os !! key with
      | Some v => Find t key = (v, true)
      | None => snd (Find t key) = false
      end /\
      exists t', Delete t key
                 = Some (t', bool_decide (is_Some (map_of os !! key))).
Proof.
  destruct (run_map os (@NewPrefixTrie V) ∅ wf_NewPrefixTrie) as (t & Hr & Hrep).
  { intros key. rewrite lookup_empty. unfold Find, NewPrefixTrie.
    cbn [root]. now rewrite find_new. }
  exists t. split; [assumption |]. intros key. specialize (Hrep key).
  fold (map_of os) in Hrep. split; [exact Hrep |].
  eexists. rewrite Delete_spec, delete_from_found. fold (Find t key).
  f_equal. f_equal. destruct (map_of os !! key) as [v |].
  - rewrite Hrep. cbn [snd]. symmetry. apply bool_decide_true. eauto.
  - rewrite Hrep. symmetry. apply bool_decide_false. now intros [x Hx].
Qed.

End MapRefinement.

Section Revisions.

Context {V : Type}.
Implicit Types (bm : pbookmark V) (rest st : list (pbookmark V))
  (t : PrefixTrie V).

Lemma erase_scan_pop bm rest :
  Prefixless.scan_pop (erase_bookmark bm) (map erase_bookmark rest) =
  let '(bm1, rest1, done) := scan_pop bm rest in
  (erase_bookmark bm1, map erase_bookmark rest1, done).
Proof.
  revert bm. induction rest as [| x rest IH]; intros bm;
    cbn [scan_pop Prefixless.scan_pop map erase_bookmark Prefixless.bm_k].
  - now destruct (bm_k bm =? 256).
  - destruct (bm_k bm =? 256); [apply IH | reflexivity].
Qed.

Lemma erase_scan_loop fuel bm rest :
  Prefixless.scan_loop fuel (erase_bookmark bm) (map erase_bookmark rest) =
  match scan_loop fuel bm rest with
  | Some (found, st) => Some (found, map erase_bookmark st)
  | None => None
  end.
Proof.
  revert bm rest. induction fuel as [| fuel IH]; intros bm rest;
    [reflexivity |].
  cbn [scan_loop Prefixless.scan_loop].
  cbn [erase_bookmark Prefixless.bm_k Prefixless.bm_n].
  destruct (bm_k bm <? 256).
  - destruct (child (bm_n bm) (Z.to_nat (bm_k bm))) as [c |].
    + destruct (valid c); [reflexivity |].
      apply (IH (Pbookmark c _ 0) (bm :: rest)).
    + apply (IH (set_k bm _) rest).
  - pose proof (erase_scan_pop bm rest) as Hpop.
    cbn [erase_bookmark] in Hpop. rewrite Hpop.
    destruct (scan_pop bm rest) as [[bm1 rest1] [|]]; [reflexivity |].
    apply (IH (set_k bm1 _) rest1).
Qed.

Lemma erase_scan_fuel bm rest :
  Prefixless.scan_fuel (erase_bookmark bm) (map erase_bookmark rest)
  = scan_fuel bm rest.
Proof.
  unfold Prefixless.scan_fuel, scan_fuel. now rewrite map_map.
Qed.

Lemma erase_Scan t :
  Prefixless.Scan (erase_trie t) =
  match Scan t with
  | Some (found, t') => Some (found, erase_trie t')
  | None => None
  end.
Proof.
  unfold Prefixless.Scan, Scan, erase_trie.
  cbn [Prefixless.bookmarks Prefixless.root].
  destruct (bookmarks t) as [| bm rest]; cbn [map].
  - change (Prefixless.Pbookmark (root t) 0)
      with (erase_bookmark (Pbookmark (root t) [] 0)).
    rewrite (erase_scan_fuel _ []), (erase_scan_loop _ _ []).
    now destruct (scan_loop _ _ []) as [[found st] |].
  - rewrite erase_scan_fuel, erase_scan_loop.
    now destruct (scan_loop _ bm rest) as [[found st] |].
Qed.

(** ** The prefix is the bytes of the bookmarks below *)

Lemma chained_tail bm rest : chained (bm :: rest) -> chained rest.
Proof. cbn [chained]. tauto. Qed.

Lemma chained_set_k bm rest z :
  chained (bm :: rest) -> chained (set_k bm z :: rest).
Proof. cbn [chained set_k bm_prefix]. tauto. Qed.

Lemma chained_scan_pop bm rest bm1 rest1 (done : bool) :
  chained (bm :: rest) -> scan_pop bm rest = (bm1, rest1, done) ->
  chained (bm1 :: rest1).
Proof.
  revert bm. induction rest as [| x rest IH]; intros bm Hc; cbn [scan_pop].
  - destruct (bm_k bm =? 256); intros [= <- <- <-]; assumption.
  - destruct (bm_k bm =? 256).
    + apply IH. eapply chained_tail, Hc.
    + intros [= <- <- <-]. assumption.
Qed.

Lemma chained_scan_loop fuel bm rest (found : bool) st :
  chained (bm :: rest) -> scan_loop fuel bm rest = Some (found, st) ->
  chained st.
Proof.
  revert bm rest. induction fuel as [| fuel IH]; intros bm rest Hc;
    [discriminate |].
  cbn [scan_loop]. destruct (bm_k bm <? 256).
  - destruct (child (bm_n bm) (Z.to_nat (bm_k bm))) as [c |].
    + assert (chained (Pbookmark c (bm_prefix bm ++ [byte_of_uint16 (bm_k bm)]) 0
                       :: bm :: rest)) as Hc'
          by (split; [reflexivity | assumption]).
      destruct (valid c); [now intros [= <- <-] | now apply IH].
    + apply IH. now apply chained_set_k.
  - destruct (scan_pop bm rest) as [[bm1 rest1] done] eqn:Epop.
    pose proof (chained_scan_pop _ _ _ _ _ Hc Epop) as Hc1.
    destruct done; [now intros [= <- <-] |].
    apply IH. now apply chained_set_k.
Qed.

Lemma chained_Scan t (found : bool) t' :
  chained (bookmarks t) -> Scan t = Some (found, t') ->
  chained (bookmarks t').
Proof.
  unfold Scan. intros Hc.
  destruct (bookmarks t) as [| bm rest].
  - destruct (scan_loop _ _ []) as [[f st] |] eqn:E; [| discriminate].
    intros [= <- <-]. cbn [bookmarks].
    eapply chained_scan_loop; [| exact E]. now split.
  - destruct (scan_loop _ bm rest) as [[f st] |] eqn:E; [| discriminate].
    intros [= <- <-]. cbn [bookmarks].
    eapply chained_scan_loop; [exact Hc | exact E].
Qed.

Lemma chained_prefix bm rest :
  chained (bm :: rest) ->
  map (fun b => byte_of_uint16 (bm_k b)) (rev rest) = bm_prefix bm.
Proof.
  revert bm. induction rest as [| p rest IH]; intros bm [Hp Hc].
  - now rewrite Hp.
  - cbn [rev]. rewrite map_app, (IH p Hc). cbn [map]. now rewrite Hp.
Qed.

Lemma text_loop_below (i fin : Z) (l : list (Prefixless.pbookmark V)) sb :
  i + Z.of_nat (length l) <= fin ->
  Prefixless.text_loop i fin l sb
  = sb ++ map (fun b => byte_of_uint16 (Prefixless.bm_k b)) l.
Proof.
  revert i sb. induction l as [| x l IH]; intros i sb Hi;
    cbn [Prefixless.text_loop map].
  - now rewrite app_nil_r.
  - cbn [length] in Hi. destruct (Z.ltb_spec i fin); [| lia].
    rewrite IH by lia. now rewrite <- app_assoc.
Qed.

Lemma text_loop_app (i fin : Z) (l1 l2 : list (Prefixless.pbookmark V)) sb :
  Prefixless.text_loop i fin (l1 ++ l2) sb
  = Prefixless.text_loop (i + Z.of_nat (length l1)) fin l2
      (Prefixless.text_loop i fin l1 sb).
Proof.
  revert i sb. induction l1 as [| x l1 IH]; intros i sb;
    cbn [Prefixless.text_loop app length].
  - now rewrite Z.add_0_r.
  - replace (i + Z.of_nat (S (length l1)))
      with (i + 1 + Z.of_nat (length l1)) by lia.
    destruct (i <? fin); apply IH.
Qed.

Lemma pair_loop_text (i fin : Z) (l : list (Prefixless.pbookmark V)) sb n :
  fst (Prefixless.pair_loop i fin l sb n) = Prefixless.text_loop i fin l sb.
Proof.
  revert i sb n. induction l as [| x l IH]; intros i sb n;
    cbn [Prefixless.pair_loop Prefixless.text_loop]; [reflexivity |].
  destruct (i <? fin); apply IH.
Qed.

Lemma pair_loop_node (i fin : Z) (l : list (Prefixless.pbookmark V)) x sb n :
  i + Z.of_nat (length l) = fin ->
  snd (Prefixless.pair_loop i fin (l ++ [x]) sb n) = Some (Prefixless.bm_n x).
Proof.
  revert i sb n. induction l as [| y l IH]; intros i sb n Hi;
    cbn [Prefixless.pair_loop app length] in *.
  - destruct (Z.ltb_spec i fin); [lia | reflexivity].
  - destruct (Z.ltb_spec i fin); [| lia]. apply IH. lia.
Qed.

Lemma erase_Text t bm rest :
  bookmarks t = bm :: rest -> chained (bookmarks t) ->
  Prefixless.Text (erase_trie t) = bm_prefix bm.
Proof.
  intros Hb Hc. rewrite Hb in Hc. unfold Prefixless.Text, erase_trie.
  cbn [Prefixless.bookmarks]. rewrite Hb. cbn [map rev length].
  rewrite text_loop_app, length_rev, length_map.
  rewrite (text_loop_below 0) by (rewrite length_rev, length_map; lia).
  cbn [Prefixless.text_loop app].
  destruct (Z.ltb_spec (0 + Z.of_nat (length rest))
                       (Z.of_nat (S (length rest)) - 1)); [lia |].
  rewrite <- map_rev, map_map. cbn [erase_bookmark Prefixless.bm_k].
  now apply chained_prefix.
Qed.

Lemma erase_Pair t :
  chained (bookmarks t) -> Prefixless.Pair (erase_trie t) = Pair t.
Proof.
  intros Hc. unfold Prefixless.Pair, Pair.
  destruct (bookmarks t) as [| bm rest] eqn:Hb.
  - unfold erase_trie. rewrite Hb. reflexivity.
  - pose proof (erase_Text t bm rest Hb) as HT. rewrite Hb in HT.
    specialize (HT Hc). unfold Prefixless.Text in HT.
    rewrite <- pair_loop_text with (n := None) in HT.
    unfold erase_trie in *. cbn [Prefixless.bookmarks] in *. rewrite Hb in *.
    cbn [map rev length] in *.
    pose proof (pair_loop_node 0 (Z.of_nat (S (length rest)) - 1)
                  (rev (map erase_bookmark rest)) (erase_bookmark bm) [] None)
      as Hn.
    rewrite length_rev, length_map in Hn. specialize (Hn ltac:(lia)).
    rewrite length_map in *.
    destruct (Prefixless.pair_loop _ _ _ _ _) as [sb n].
    cbn [fst snd] in *. subst sb n. reflexivity.
Qed.

(** X10.  The revision without prefixes and the one with them agree.  On
    the same nodes and the same [n] and [k] in every bookmark, Scan
    returns the same boolean and leaves the same stack; and as long as the
    prefixes follow the stack, which Scan maintains from the empty stack
    on, the key that Text and Pair rebuild from the [k] of the bookmarks
    is the stored prefix of the top bookmark. *)
Theorem revisions_agree t :
  chained (bookmarks t) ->
  Prefixless.Scan (erase_trie t) =
  match Scan t with
  | Some (found, t') => Some (found, erase_trie t')
  | None => None
  end /\
  Prefixless.Pair (erase_trie t) = Pair t /\
  (bookmarks t <> [] -> Some (Prefixless.Text (erase_trie t)) = Text t) /\
  forall (found : bool) t', Scan t = Some (found, t') -> chained (bookmarks t').
Proof.
  intros Hc. split; [apply erase_Scan |]. split; [now apply erase_Pair |].
  split.
  - intros Hne. unfold Text. destruct (bookmarks t) as [| bm rest] eqn:Hb;
      [congruence |].
    f_equal. apply (erase_Text t bm rest Hb). now rewrite Hb.
  - intros found t'. now apply chained_Scan.
Qed.

End Revisions.

Section PrefixlessEnumeration.

Context {V : Type}.
Implicit Types (t : PrefixTrie V).

Lemma erase_scan_all fuel t :
  chained (bookmarks t) ->
  Prefixless.scan_all fuel (erase_trie t) =
  match scan_all fuel t with
  | Some (ps, t') => Some (ps, erase_trie t')
  | None => None
  end.
Proof.
  revert t. induction fuel as [| fuel IH]; intros t Hc; [reflexivity |].
  cbn [scan_all Prefixless.scan_all]. rewrite erase_Scan.
  destruct (Scan t) as [[found t1] |] eqn:HS; [| reflexivity].
  pose proof (chained_Scan _ _ _ Hc HS) as Hc1.
  destruct found; [| reflexivity].
  rewrite (erase_Pair t1 Hc1), (IH t1 Hc1).
  destruct (Pair t1); [| reflexivity].
  now destruct (scan_all fuel t1) as [[ps t2] |].
Qed.

(** The listing of a trie whose cursor was never used. *)
Lemma remaining_listing t :
  wf_trie t = true -> bookmarks t = [] ->
  StronglySorted (fun a a' => lex_lt a a' = true) (fst <$> remaining t) /\
  forall key v, (key, v) ∈ remaining t <-> key <> [] /\ Find t key = (v, true).
Proof.
  intros Hwf Hb. rewrite (remaining_fresh t Hb).
  apply wf_trie_spec in Hwf. destruct Hwf as [Hroot _]. split.
  - apply entries_from_sorted.
    + intros j c Hj pre'. apply entries_sorted.
      eapply wf_node_child; [exact Hroot |]. apply child_Some. exact Hj.
    + rewrite (wf_node_length _ Hroot). lia.
  - intros key v. pose proof (elem_of_entries (root t) Hroot [] key v) as He.
    rewrite entries_eq, elem_of_app in He. unfold Find. split.
    + intros H. split.
      * apply entries_from_key in H. destruct H as (j & s & _ & ->).
        discriminate.
      * destruct (proj1 He (or_intror H)) as (s & -> & Hf). exact Hf.
    + intros [Hne Hf]. destruct (proj2 He) as [H | H]; [eauto | | exact H].
      exfalso. destruct (valid (root t)); [| inversion H].
      apply list_elem_of_singleton in H. congruence.
Qed.

(** X11.  In the revision without prefixes, too, the loop over Scan and Pair
    on a trie never scanned yields the stored pairs whose key is not
    empty, each once, in strictly ascending byte order, and never the
    pair of the empty key. *)
Theorem Prefixless_scan_all_enumerates (t : Prefixless.PrefixTrie V) :
  wf_node (Prefixless.root t) = true -> Prefixless.bookmarks t = [] ->
  exists ps (t' : Prefixless.PrefixTrie V),
    Prefixless.scan_all
      (S (length (entries_from [] O (children (Prefixless.root t))))) t
    = Some (ps, t') /\
    StronglySorted (fun a a' => lex_lt a a' = true) (fst <$> ps) /\
    forall key v,
      (key, v) ∈ ps <-> key <> [] /\ Prefixless.Find t key = (v, true).
Proof.
  destruct t as [r bs]. cbn [Prefixless.root Prefixless.bookmarks].
  intros Hroot ->. set (t0 := MkPrefixTrie r []).
  change (Prefixless.MkPrefixTrie r []) with (erase_trie t0).
  assert (wf_trie t0 = true) as Hwf
      by (apply wf_trie_spec; split; [exact Hroot | constructor]).
  destruct (remaining_listing t0 Hwf eq_refl) as [Hsorted Hmem].
  pose proof (remaining_fresh t0 eq_refl) as Hrem. cbn [root t0] in Hrem.
  destruct (scan_all_spec (S (length (remaining t0))) t0 Hwf
              (Nat.lt_succ_diag_r _)) as (t' & Hall & _).
  exists (remaining t0), (erase_trie t').
  rewrite (erase_scan_all _ t0 I), <- Hrem, Hall.
  split; [reflexivity |]. split; [exact Hsorted | exact Hmem].
Qed.

End PrefixlessEnumeration.

Section Programs.

Lemma scan_texts_all {V : Type} fuel (t : PrefixTrie V) :
  scan_texts fuel t =
  match scan_all fuel t with
  | Some (ps, t') => Some (fst <$> ps, t')
  | None => None
  end.
Proof.
  revert t. induction fuel as [| fuel IH]; intros t; [reflexivity |].
  cbn [scan_texts scan_all].
  destruct (Scan t) as [[[|] t1] |]; try reflexivity.
  rewrite IH. unfold Text, Pair. destruct (bookmarks t1) as [| bm rest];
    [reflexivity |].
  now destruct (scan_all fuel t1) as [[ps t2] |].
Qed.

Lemma sorted_NoDup (l : list (list byte)) :
  StronglySorted (fun a a' => lex_lt a a' = true) l -> NoDup l.
Proof.
  induction 1 as [| x l Hs IH Hall]; constructor; [| assumption].
  intros Hin. rewrite Forall_forall in Hall. specialize (Hall x Hin).
  now rewrite lex_lt_irrefl in Hall.
Qed.

Lemma Insert_stored {V : Type} (t : PrefixTrie V) k v key :
  wf_trie t = true ->
  snd (Find (Insert t k v) key) = true <->
  key = k \/ snd (Find t key) = true.
Proof.
  intros Hwf. apply wf_trie_spec in Hwf. destruct Hwf as [Hroot _].
  unfold Find, Insert. cbn [root].
  destruct (decide (key = k)) as [-> | Hne].
  - rewrite find_insert_eq by assumption. cbn [snd]. tauto.
  - rewrite find_insert_ne by assumption. tauto.
Qed.

(** The Scan loop of the two programs, on a trie never scanned whose
    stored keys, the empty one apart, are the lines read. *)
Lemma program_listing {V : Type} (t : PrefixTrie V) (lines : list (list byte)) :
  wf_trie t = true -> bookmarks t = [] ->
  (forall key, key <> [] -> snd (Find t key) = true <-> key ∈ lines) ->
  exists out t',
    scan_texts (S (length lines)) t = Some (out, t') /\
    root t' = root t /\
    StronglySorted (fun a a' => lex_lt a a' = true) out /\
    forall key, key ∈ out <-> key ∈ lines /\ key <> [].
Proof.
  intros Hwf Hb Hstored.
  destruct (remaining_listing t Hwf Hb) as [Hsorted Hmem].
  assert (forall key, key ∈ fst <$> remaining t <-> key ∈ lines /\ key <> [])
    as Hkeys.
  { intros key. rewrite list_elem_of_fmap. split.
    - intros ([k v] & -> & Hin). apply Hmem in Hin. destruct Hin as [Hne Hf].
      cbn [fst]. split; [| assumption]. apply Hstored; [assumption |].
      now rewrite Hf.
    - intros [Hin Hne]. apply Hstored in Hin; [| assumption].
      destruct (Find t key) as [v f] eqn:Hf. cbn [snd] in Hin. subst f.
      exists (key, v). split; [reflexivity |]. apply Hmem. now split. }
  assert (length (remaining t) <= length lines)%nat as Hlen.
  { rewrite <- (length_fmap fst). apply submseteq_length.
    apply NoDup_submseteq; [now apply sorted_NoDup |].
    intros key Hin. now apply Hkeys in Hin. }
  destruct (scan_all_spec (S (length lines)) t Hwf ltac:(lia))
    as (t' & Hall & Hroot & _).
  exists (fst <$> remaining t), t'. rewrite scan_texts_all, Hall.
  repeat split; try assumption; now apply Hkeys.
Qed.

Lemma stored_fold_insert (lines : list (list byte)) (t : PrefixTrie unit) :
  wf_trie t = true ->
  let t' := fold_left (fun t line => Insert t line (Some tt)) lines t in
  wf_trie t' = true /\ bookmarks t' = bookmarks t /\
  forall key, snd (Find t' key) = true <->
              key ∈ lines \/ snd (Find t key) = true.
Proof.
  revert t. induction lines as [| l lines IH]; intros t Hwf; cbn [fold_left].
  - repeat split; try assumption; [tauto |]. intros [H | H]; [inversion H | assumption].
  - destruct (IH (Insert t l (Some tt)) (wf_Insert _ _ _ Hwf))
      as (Hwf' & Hb' & Hst).
    repeat split; try assumption.
    + rewrite Hst, Insert_stored, elem_of_cons by assumption. tauto.
    + rewrite Hst, Insert_stored, elem_of_cons by assumption. tauto.
Qed.

(** X12.  The sorting program.  With [scanner.Err()] nil it prints the lines
    read that are not empty, each once, in strictly ascending byte order,
    and exits with status 0; an empty line is never printed.  With an
    error it prints no key and exits with status 1. *)
Theorem SortLines_main (lines : list (list byte)) :
  SortLines.main lines true = Some ([], 1) /\
  exists out,
    SortLines.main lines false = Some (out, 0) /\
    StronglySorted (fun a a' => lex_lt a a' = true) out /\
    forall key, key ∈ out <-> key ∈ lines /\ key <> [].
Proof.
  split; [reflexivity |]. unfold SortLines.main.
  destruct (stored_fold_insert lines NewPrefixTrie wf_NewPrefixTrie)
    as (Hwf & Hb & Hst).
  cbn zeta in Hwf, Hb, Hst.
  destruct (program_listing _ lines Hwf Hb) as (out & t' & Hout & _ & Hs & Hk).
  { intros key _. rewrite Hst.
    assert (snd (Find (@NewPrefixTrie unit) key) = false) as ->
        by (unfold Find, NewPrefixTrie; cbn [root]; now rewrite find_new).
    split; [intros [H | H]; [assumption | discriminate] | now left]. }
  exists out. rewrite Hout. split; [reflexivity |]. split; assumption.
Qed.

Lemma stored_read_lines (lines : list (list byte)) (t : PrefixTrie Z) line :
  wf_trie t = true ->
  let t' := DeleteDemo.read_lines t line lines in
  wf_trie t' = true /\ bookmarks t' = bookmarks t /\
  forall key, snd (Find t' key) = true <->
              key ∈ lines \/ snd (Find t key) = true.
Proof.
  revert t line. induction lines as [| l lines IH]; intros t line Hwf;
    cbn [DeleteDemo.read_lines].
  - repeat split; try assumption; [tauto |]. intros [H | H]; [inversion H | assumption].
  - destruct (IH (Insert t l (Some (int_wrap (line + 1)))) (int_wrap (line + 1))
                 (wf_Insert _ _ _ Hwf)) as (Hwf' & Hb' & Hst).
    repeat split; try assumption.
    + rewrite Hst, Insert_stored, elem_of_cons by assumption. tauto.
    + rewrite Hst, Insert_stored, elem_of_cons by assumption. tauto.
Qed.

End Programs.

Section DeleteProgram.

Ltac eval_closed_decisions :=
  repeat match goal with
    | |- context [bool_decide (?d ∉ take ?i DeleteDemo.deleted)] =>
        let r := eval vm_compute in
                   (bool_decide (d ∉ take i DeleteDemo.deleted)) in
        change (bool_decide (d ∉ take i DeleteDemo.deleted)) with r
    | |- context [bool_decide (?d = @nil byte)] =>
        let r := eval vm_compute in (bool_decide (d = @nil byte)) in
        change (bool_decide (d = @nil byte)) with r
    end.

(** X13.  The deleting program.  With [scanner.Err()] nil it prints the lines
    read that are not empty, each once, in ascending byte order; then the
    twelve [deleteFromTrie] calls report: true for "", which the program
    inserted itself; for each of the seven words whether it was among the
    lines; false for the three words deleted a second time; and false for
    the last "". *)
Theorem DeleteDemo_main (lines : list (list byte)) :
  let has := fun key => bool_decide (key ∈ lines) in
  DeleteDemo.main lines true = Some ([], [], 1) /\
  exists out,
    DeleteDemo.main lines false
    = Some (out,
            [([], true); (romane, has romane); (romanus, has romanus);
             (romulus, has romulus); (romane, false); (romanus, false);
             (romulus, false); (rubens, has rubens); (ruber, has ruber);
             (rubicon, has rubicon); (rubicundus, has rubicundus);
             ([], false)],
            0) /\
    StronglySorted (fun a a' => lex_lt a a' = true) out /\
    forall key, key ∈ out <-> key ∈ lines /\ key <> [].
Proof.
  intros has. split; [reflexivity |]. unfold DeleteDemo.main.
  set (t0 := Insert (@NewPrefixTrie Z) [] (Some 0)).
  assert (wf_trie t0 = true) as Hwf0 by reflexivity.
  destruct (stored_read_lines lines t0 0 Hwf0) as (Hwf & Hb & Hst).
  cbn zeta in Hwf, Hb, Hst.
  set (t := DeleteDemo.read_lines t0 0 lines) in *.
  assert (forall key, snd (Find t0 key) = bool_decide (key = [])) as Ht0.
  { intros key. unfold t0. apply eq_true_iff_eq.
    rewrite Insert_stored by apply wf_NewPrefixTrie.
    rewrite bool_decide_eq_true. unfold Find, NewPrefixTrie. cbn [root].
    rewrite find_new. cbn [snd]. split; [intros [H | H]; [assumption | discriminate] | now left]. }
  assert (forall key, snd (Find t key) = has key || bool_decide (key = []))
    as Hfound.
  { intros key. apply eq_true_iff_eq. rewrite Hst, Ht0, orb_true_iff.
    unfold has. now rewrite !bool_decide_eq_true. }
  destruct (program_listing t lines Hwf Hb) as (out & t' & Hout & Hroot & Hs & Hk).
  { intros key Hne. rewrite Hfound, orb_true_iff. unfold has.
    rewrite !bool_decide_eq_true. tauto. }
  rewrite Hout.
  destruct (delete_all_lookup t' DeleteDemo.deleted)
    as (t'' & rs & Hall & Hlen & Hrs).
  rewrite Hall. exists out. split; [| split; assumption].
  assert (forall key, snd (Find t' key) = has key || bool_decide (key = []))
    as Hfound' by (intros key; unfold Find; rewrite Hroot; apply Hfound).
  f_equal. f_equal. f_equal. apply list_eq. intros i.
  do 12 (destruct i as [| i];
         [match goal with
          | |- rs !! ?n = _ => rewrite (Hrs n _ eq_refl)
          end;
          rewrite Hfound'; cbn [lookup list_lookup];
          f_equal; f_equal; eval_closed_decisions;
          match goal with
          | |- context [has ?k] => destruct (has k); reflexivity
          end |]).
  rewrite lookup_ge_None_2 by (rewrite Hlen; cbn [length DeleteDemo.deleted]; lia).
  symmetry. apply lookup_ge_None_2. cbn [length]. lia.
Qed.

End DeleteProgram.

(** ** The further properties at concrete tries *)

Lemma scan_all_enumerates_witness :
  wf_trie scenario1 = true /\ bookmarks scenario1 = [] /\
  exists ps t',
    scan_all (S (length (remaining scenario1))) scenario1 = Some (ps, t') /\
    StronglySorted (fun a a' => lex_lt a a' = true) (fst <$> ps) /\
    forall key v,
      (key, v) ∈ ps <-> key <> [] /\ Find scenario1 key = (v, true).
Proof.
  assert (wf_trie scenario1 = true) as Hwf by reflexivity.
  assert (bookmarks scenario1 = []) as Hb by reflexivity.
  split; [exact Hwf |]. split; [exact Hb |].
  exact (scan_all_enumerates scenario1 Hwf Hb).
Defined.

Lemma Insert_overwrites_witness :
  wf_trie scenario2 = true /\
  Insert (Insert scenario2 romane (Some 8)) romane (Some 9)
  = Insert scenario2 romane (Some 9).
Proof.
  assert (wf_trie scenario2 = true) as Hwf by reflexivity.
  split; [exact Hwf |].
  exact (Insert_overwrites scenario2 romane (Some 8) (Some 9) Hwf).
Defined.

Lemma Insert_commutes_witness :
  wf_trie scenario2 = true /\ k_rom <> k_ab /\
  Insert (Insert scenario2 k_rom (Some 8)) k_ab (Some 9)
  = Insert (Insert scenario2 k_ab (Some 9)) k_rom (Some 8).
Proof.
  assert (wf_trie scenario2 = true) as Hwf by reflexivity.
  assert (k_rom <> k_ab) as Hne by discriminate.
  split; [exact Hwf |]. split; [exact Hne |].
  exact (Insert_commutes scenario2 k_rom (Some 8) k_ab (Some 9) Hwf Hne).
Defined.

Lemma Delete_after_Insert_restores_witness :
  wf_trie scenario2 = true /\ compact (root scenario2) = true /\
  walk (root scenario2) k_ab = None /\
  Delete (Insert scenario2 k_ab (Some 9)) k_ab = Some (scenario2, true).
Proof.
  assert (wf_trie scenario2 = true) as Hwf by reflexivity.
  assert (compact (root scenario2) = true) as Hc by reflexivity.
  assert (walk (root scenario2) k_ab = None) as Hw by reflexivity.
  split; [exact Hwf |]. split; [exact Hc |]. split; [exact Hw |].
  exact (Delete_after_Insert_restores scenario2 k_ab (Some 9) Hwf Hc Hw).
Defined.

Lemma node_accounting_witness :
  wf_trie scenario2 = true /\
  (node_count (root (Insert scenario2 rubicon (Some 9%Z)))
   + matched (root scenario2) rubicon
   = node_count (root scenario2) + length rubicon)%nat /\
  (matched (root scenario2) rubicon <= length rubicon)%nat /\
  exists t' found,
    Delete scenario2 rubicon = Some (t', found) /\
    (node_count (root t') <= node_count (root scenario2))%nat.
Proof.
  assert (wf_trie scenario2 = true) as Hwf by reflexivity.
  split; [exact Hwf |].
  exact (node_accounting scenario2 rubicon (Some 9) Hwf).
Defined.

Lemma Scan_false_forever_witness :
  wf_trie (MkPrefixTrie (root scenario1) [Pbookmark (root scenario1) [] 255])
  = true /\
  Scan (MkPrefixTrie (root scenario1) [Pbookmark (root scenario1) [] 255])
  = Some (false,
          MkPrefixTrie (root scenario1) [Pbookmark (root scenario1) [] 256]) /\
  exists t'',
    run (MkPrefixTrie (root scenario1) [Pbookmark (root scenario1) [] 256])
        [OpInsert k_b (Some 5); OpScan; OpDelete k_a; OpScan]
    = Some t'' /\
    bookmarks t'' = [Pbookmark (root scenario1) [] 256] /\
    Scan t'' = Some (false, t'').
Proof.
  assert (wf_trie (MkPrefixTrie (root scenario1)
                     [Pbookmark (root scenario1) [] 255]) = true)
    as Hwf by reflexivity.
  assert (Scan (MkPrefixTrie (root scenario1)
                  [Pbookmark (root scenario1) [] 255])
          = Some (false,
                  MkPrefixTrie (root scenario1)
                    [Pbookmark (root scenario1) [] 256]))
    as HS by (vm_compute; reflexivity).
  split; [exact Hwf |]. split; [exact HS |].
  exact (Scan_false_forever _ _
           [OpInsert k_b (Some 5); OpScan; OpDelete k_a; OpScan] Hwf HS).
Defined.

Lemma revisions_agree_witness :
  chained [Pbookmark (@new_pnode Z) k_a 0; Pbookmark (root scenario1) [] 97] /\
  Prefixless.Pair
    (erase_trie (MkPrefixTrie (root scenario1)
                   [Pbookmark (@new_pnode Z) k_a 0;
                    Pbookmark (root scenario1) [] 97]))
  = Some (k_a, None) /\
  Some (Prefixless.Text
          (erase_trie (MkPrefixTrie (root scenario1)
                         [Pbookmark (@new_pnode Z) k_a 0;
                          Pbookmark (root scenario1) [] 97])))
  = Some k_a.
Proof.
  assert (chained [Pbookmark (@new_pnode Z) k_a 0;
                   Pbookmark (root scenario1) [] 97]) as Hc
      by (simpl; repeat split; reflexivity).
  split; [exact Hc |].
  destruct (revisions_agree
              (MkPrefixTrie (root scenario1)
                 [Pbookmark (@new_pnode Z) k_a 0;
                  Pbookmark (root scenario1) [] 97]) Hc)
    as (_ & HP & HT & _).
  split; [exact HP |]. apply HT. discriminate.
Defined.

Lemma Prefixless_scan_all_enumerates_witness :
  wf_node (Prefixless.root (erase_trie scenario1)) = true /\
  Prefixless.bookmarks (erase_trie scenario1) = [] /\
  exists ps (t' : Prefixless.PrefixTrie Z),
    Prefixless.scan_all
      (S (length (entries_from [] O
                    (children (Prefixless.root (erase_trie scenario1))))))
      (erase_trie scenario1)
    = Some (ps, t') /\
    StronglySorted (fun a a' => lex_lt a a' = true) (fst <$> ps) /\
    forall key v,
      (key, v) ∈ ps <->
      key <> [] /\ Prefixless.Find (erase_trie scenario1) key = (v, true).
Proof.
  assert (wf_node (Prefixless.root (erase_trie scenario1)) = true)
    as Hwf by reflexivity.
  assert (Prefixless.bookmarks (erase_trie scenario1) = []) as Hb
      by reflexivity.
  split; [exact Hwf |]. split; [exact Hb |].
  exact (Prefixless_scan_all_enumerates (erase_trie scenario1) Hwf Hb).
Defined.

